(** * Drill dashboard: signal generator and feature-window builder

    A shallow embedding of the two pieces of the dashboard component that
    carry arithmetic: [makeRandomDrillValues] (synthetic sensor values with a
    wear term driven by the module-level counter [cycle]) and the body of
    the prediction effect (the [sequence] of feature rows and its flattened,
    temperature-free variant [sequenceForEst]), together with the auto-send
    timer handlers [startAutoSend] / [stopAutoSend].

    Modelling conventions.
    - A JavaScript number is an exact rational ([Qc], canonical fractions
      with Leibniz equality).  Binary rounding of doubles is not modelled;
      the counter [cycle] is an unbounded integer.
    - [Math.random()] reads an external source: the page state carries the
      source as a function from the draw index to the value drawn, and a
      cursor counting the draws made so far.
    - A property read that can yield [undefined] / [null] is an [option];
      a statement that can throw returns a [completion]. *)

From Stdlib Require Import ZArith QArith Qcanon Qround List String Bool Lia.
From Stdlib Require Import Lqa Sorting.Sorted Sorting.Permutation.
Import ListNotations.

Local Open Scope Qc_scope.

(** ** Numbers *)

Notation number := Qc (only parsing).

(** Integer literal and decimal literal [n / d]. *)
Definition int (z : Z) : number := Q2Qc (inject_Z z).
Definition dec (n : Z) (d : positive) : number := Q2Qc (n # d).

(** [Math.round]: nearest integer, a tie goes towards +infinity. *)
Definition Math_round (x : number) : number :=
  int (Qfloor (x + dec 1 2)).

(** [Math.max] on two numbers. *)
Definition Math_max (a b : number) : number :=
  match a ?= b with
  | Lt => b
  | _ => a
  end.

(** [+(x.toFixed(f))]: the number denoted by the decimal string that
    [Number.prototype.toFixed] produces.  The sign is split off first; a
    magnitude of at least 10^21 is printed by [ToString] and so read back
    unchanged; otherwise the integer [n] with [n / 10^f] closest to the
    magnitude is taken, the larger one on a tie.  The tie is that of the
    exact value: the code rounds the double that stands for it, which at
    an exact tie can lie on either side, so that the code may give the
    lower neighbour where this definition gives the upper one. *)
Definition pow10 (f : nat) : number := int (10 ^ Z.of_nat f).

Definition toFixed_magnitude (x : number) (f : nat) : number :=
  match x ?= int (10 ^ 21) with
  | Lt => int (Qfloor (x * pow10 f + dec 1 2)) / pow10 f
  | _ => x
  end.

Definition toFixed (x : number) (f : nat) : number :=
  match x ?= 0 with
  | Lt => - toFixed_magnitude (- x) f
  | _ => toFixed_magnitude x f
  end.

(** [a ?? d]: the left operand unless it is [null] or [undefined]. *)
Definition nullish {A : Type} (a : option A) (d : A) : A :=
  match a with
  | Some v => v
  | None => d
  end.

Notation "a ?? d" := (nullish a d) (at level 45, left associativity).

(** ** Completions: a statement returns normally or throws *)

Inductive completion (A : Type) : Type :=
| Normal (a : A)
| Throw (e : string).

Arguments Normal {A} a.
Arguments Throw {A} e.

Definition bind {A B : Type} (c : completion A) (k : A -> completion B)
  : completion B :=
  match c with
  | Normal a => k a
  | Throw e => Throw e
  end.

Notation "x <- c ;; k" := (bind c (fun x => k))
  (at level 61, c at next level, right associativity).

(** ** Data *)

(** The object literal returned by [makeRandomDrillValues]. *)
Record DrillValues : Type := mkValues {
  temp : number;
  rpm : number;
  load : number;
  vibration : number;
  depth : number
}.

(** A document of the [drillData] collection as the listener delivers it:
    [{ id: doc.id, ...doc.data() }].  A field the stored document lacks
    reads as [undefined]. *)
Record DrillDoc : Type := mkDoc {
  id : string;
  doc_temp : option number;
  doc_rpm : option number;
  doc_load : option number;
  doc_vibration : option number;
  doc_depth : option number;
  createdAt : option Z
}.

(** ** Page state

    The module-level counter, the random source, the component's state
    hooks and refs that the handlers below read or write, the browser's
    table of running intervals ([id], period) and the values [addDoc]
    has stored so far.  Hooks that only feed the display ([selectedMetric],
    [samplingRate], [isDrillAnimating], [chartRef]) are left out.
    [estimatedTemp] holds the number its two-decimal string denotes. *)
Record Page : Type := mkPage {
  cycle : Z;
  random_source : nat -> number;
  drawn : nat;
  records : list DrillDoc;
  status : string;
  autoSending : bool;
  autoRef : option nat;
  rulPrediction : option number;
  estimatedTemp : option number;
  intervals : list (nat * nat);
  next_interval : nat;
  written : list DrillValues
}.

(** The state when the module has been loaded and the component mounted:
    [let cycle = 0], [useState([])], [useState('idle')], [useState(false)],
    [useRef(null)], [useState(null)] twice; interval ids start at 1. *)
Definition initial (src : nat -> number) : Page :=
  mkPage 0 src 0 [] "idle" false None None None [] 1 [].

Definition set_cycle (c : Z) (s : Page) : Page :=
  mkPage c (random_source s) (drawn s) (records s) (status s)
         (autoSending s) (autoRef s)
         (rulPrediction s) (estimatedTemp s) (intervals s)
         (next_interval s) (written s).

Definition set_drawn (n : nat) (s : Page) : Page :=
  mkPage (cycle s) (random_source s) n (records s) (status s)
         (autoSending s) (autoRef s)
         (rulPrediction s) (estimatedTemp s) (intervals s)
         (next_interval s) (written s).

Definition setRecords (r : list DrillDoc) (s : Page) : Page :=
  mkPage (cycle s) (random_source s) (drawn s) r (status s)
         (autoSending s) (autoRef s)
         (rulPrediction s) (estimatedTemp s) (intervals s)
         (next_interval s) (written s).

Definition setStatus (m : string) (s : Page) : Page :=
  mkPage (cycle s) (random_source s) (drawn s) (records s) m
         (autoSending s) (autoRef s)
         (rulPrediction s) (estimatedTemp s) (intervals s)
         (next_interval s) (written s).

Definition setAutoSending (b : bool) (s : Page) : Page :=
  mkPage (cycle s) (random_source s) (drawn s) (records s) (status s)
         b (autoRef s)
         (rulPrediction s) (estimatedTemp s) (intervals s)
         (next_interval s) (written s).

Definition set_autoRef (h : option nat) (s : Page) : Page :=
  mkPage (cycle s) (random_source s) (drawn s) (records s) (status s)
         (autoSending s) h
         (rulPrediction s) (estimatedTemp s) (intervals s)
         (next_interval s) (written s).

Definition set_intervals (t : list (nat * nat)) (n : nat) (s : Page) : Page :=
  mkPage (cycle s) (random_source s) (drawn s) (records s) (status s)
         (autoSending s) (autoRef s)
         (rulPrediction s) (estimatedTemp s) t n (written s).

Definition set_written (w : list DrillValues) (s : Page) : Page :=
  mkPage (cycle s) (random_source s) (drawn s) (records s) (status s)
         (autoSending s) (autoRef s)
         (rulPrediction s) (estimatedTemp s) (intervals s)
         (next_interval s) w.

(** ** The signal generator *)

(** A computation over the page state. *)
Definition M (A : Type) : Type := Page -> A * Page.

Definition ret {A : Type} (a : A) : M A := fun s => (a, s).

Definition mbind {A B : Type} (m : M A) (k : A -> M B) : M B :=
  fun s => let (a, s') := m s in k a s'.

Notation "'let*' x := m 'in' k" := (mbind m (fun x => k))
  (at level 10, x name, m at level 100, k at level 200).

(** [Math.random()]: the next value of the source. *)
Definition Math_random : M number :=
  fun s => (random_source s (drawn s), set_drawn (S (drawn s)) s).

(** [cycle++] as a statement, then a read of [cycle]. *)
Definition increment_cycle : M unit :=
  fun s => (tt, set_cycle (cycle s + 1) s).

Definition read_cycle : M Z := fun s => (cycle s, s).

(** [makeRandomDrillValues].  The fields of the object literal are
    evaluated in source order, so the four draws are made for [temp],
    [load], [vibration] and [depth] in that order. *)
Definition makeRandomDrillValues : M DrillValues :=
  let* _ := increment_cycle in
  let* c := read_cycle in
  let degradationFactor := int c / int 1000 in
  let* r1 := Math_random in
  let* r2 := Math_random in
  let* r3 := Math_random in
  let* r4 := Math_random in
  ret {| temp := toFixed (int 20 + r1 * int 60 + degradationFactor * int 10) 2;
         rpm := Math_round (int 5000 - degradationFactor * int 1000);
         load := toFixed (r2 * int 30 + degradationFactor * int 5) 2;
         vibration := toFixed (r3 * int 10 + degradationFactor * int 2) 3;
         depth := toFixed (r4 * int 50) 2 |}.

(** ** Sending and the auto-send timer *)

(** [setInterval] registers the callback under a fresh positive id;
    [clearInterval] drops the entry with that id. *)
Definition setInterval (ms : nat) : M nat :=
  fun s => (next_interval s,
            set_intervals ((next_interval s, ms) :: intervals s)
                          (S (next_interval s)) s).

Definition clearInterval (h : nat) : M unit :=
  fun s => (tt, set_intervals
                  (filter (fun e => negb (Nat.eqb (fst e) h)) (intervals s))
                  (next_interval s) s).

(** Truthiness of [autoRef.current]: [null] and the number 0 are falsy. *)
Definition truthy (h : option nat) : bool :=
  match h with
  | Some (S _) => true
  | _ => false
  end.

(** [sendRandomToFirestore].  [outcome] is what the awaited [addDoc] did:
    [None] when it resolved, [Some msg] when it rejected with that
    message.  The call and the settling of its write are one step here;
    [async_step] below takes them apart, with other events in
    between. *)
Definition sendRandomToFirestore (outcome : option string) : M unit :=
  let* values := makeRandomDrillValues in
  match outcome with
  | None =>
      fun s => (tt, setStatus "sent" (set_written (written s ++ [values]) s))
  | Some msg =>
      fun s => (tt, setStatus ("error: " ++ msg)%string s)
  end.

(** [startAutoSend(intervalMs)]. *)
Definition startAutoSend (intervalMs : nat) : M unit :=
  fun s =>
    if truthy (autoRef s) then (tt, s)
    else
      let s1 := setAutoSending true s in
      let (h, s2) := setInterval intervalMs s1 in
      let s3 := set_autoRef (Some h) s2 in
      (tt, setStatus "auto-started" s3).

(** [stopAutoSend]. *)
Definition stopAutoSend : M unit :=
  fun s =>
    let s1 :=
      if truthy (autoRef s) then
        match autoRef s with
        | Some h => set_autoRef None (snd (clearInterval h s))
        | None => s
        end
      else s in
    let s2 := setAutoSending false s1 in
    (tt, setStatus "auto-stopped" s2).

(** ** The feature-window builder *)

(** [arr[i]] followed by a property read: reading a property of
    [undefined] throws a TypeError. *)
Definition element {A : Type} (arr : list A) (i : nat) : completion A :=
  match nth_error arr i with
  | Some a => Normal a
  | None => Throw "TypeError"
  end.

(** [arr.map((r, i) => ...)] for a callback that may throw. *)
Fixpoint Array_map_from {A B : Type} (f : A -> nat -> completion B)
         (i : nat) (arr : list A) : completion (list B) :=
  match arr with
  | [] => Normal []
  | r :: rest =>
      b <- f r i ;;
      bs <- Array_map_from f (S i) rest ;;
      Normal (b :: bs)
  end.

Definition Array_map {A B : Type} (f : A -> nat -> completion B)
           (arr : list A) : completion (list B) :=
  Array_map_from f 0 arr.

(** The callback of [recentRecords.map]: one feature row.  The quotient
    is the rational one; a zero divisor, where JavaScript would produce a
    non-finite value, does not occur ([Math_max_divisor] below). *)
Definition featureRow (recentRecords : list DrillDoc) (r : DrillDoc)
           (i : nat) : completion (list number) :=
  let temp := doc_temp r ?? 0 in
  let rpm := doc_rpm r ?? 0 in
  let load := doc_load r ?? 0 in
  let vibration := doc_vibration r ?? 0 in
  let depth := doc_depth r ?? 0 in
  prevTemp <- (if (0 <? i)%nat
               then p <- element recentRecords (i - 1) ;;
                    Normal (doc_temp p ?? 0)
               else Normal temp) ;;
  let tempChange := temp - prevTemp in
  let torqueEst := (load * dec 955 100) / Math_max rpm 1 in
  Normal [temp; rpm; load; vibration; depth; tempChange; torqueEst].

(** [sequence]: the rows of a chronological window. *)
Definition sequence (recentRecords : list DrillDoc)
  : completion (list (list number)) :=
  Array_map (featureRow recentRecords) recentRecords.

(** [sequence.map(row => row.slice(1)).flat()]. *)
Definition sequenceForEst (sequence : list (list number)) : list number :=
  List.concat (map (skipn 1) sequence).

(** The two request bodies the prediction effect posts:
    [{ sequence: [sequence] }] and [{ sequence: sequenceForEst }]. *)
Record Requests : Type := mkRequests {
  predict_rul : list (list (list number));
  predict_temp : list number
}.

(** The effect that runs when [records] changes.  It posts nothing below
    20 records; otherwise the window is the 20 newest records, reversed
    into chronological order. *)
Definition predictionEffect (s : Page) : completion (option Requests) * Page :=
  if (20 <=? List.length (records s))%nat then
    let recentRecords := rev (firstn 20 (records s)) in
    (rows <- sequence recentRecords ;;
     Normal (Some (mkRequests [rows] (sequenceForEst rows))), s)
  else (Normal None, s).

(** ** Events of the page

    Button clicks honour the [disabled] attributes: "Start Auto" is
    disabled while [autoSending], "Stop Auto" while not.  A timer callback
    runs only for an interval that is still registered. *)
Inductive event : Type :=
| ClickSend (outcome : option string)
| ClickStart
| ClickStop
| ClickClear
| IntervalFires (h : nat) (outcome : option string)
| SnapshotArrives (arr : list DrillDoc)
| ListenError (msg : string)
| RulArrives (rul : number)
| TempEstArrives (temp_est : number).

Definition setRulPrediction (v : option number) (s : Page) : Page :=
  mkPage (cycle s) (random_source s) (drawn s) (records s) (status s)
         (autoSending s) (autoRef s) v (estimatedTemp s) (intervals s)
         (next_interval s) (written s).

Definition setEstimatedTemp (v : option number) (s : Page) : Page :=
  mkPage (cycle s) (random_source s) (drawn s) (records s) (status s)
         (autoSending s) (autoRef s) (rulPrediction s) v (intervals s)
         (next_interval s) (written s).

Definition step (e : event) (s : Page) : Page :=
  match e with
  | ClickSend outcome => snd (sendRandomToFirestore outcome s)
  | ClickStart => if autoSending s then s else snd (startAutoSend 5000 s)
  | ClickStop => if autoSending s then snd (stopAutoSend s) else s
  | ClickClear => setStatus "cleared local UI" (setRecords [] s)
  | IntervalFires h outcome =>
      if existsb (fun e => Nat.eqb (fst e) h) (intervals s)
      then snd (sendRandomToFirestore outcome s)
      else s
  | SnapshotArrives arr => setRecords arr s
  | ListenError msg => setStatus ("listen-error: " ++ msg)%string s
  | RulArrives rul => setRulPrediction (Some (Math_round rul)) s
  | TempEstArrives t => setEstimatedTemp (Some (toFixed t 2)) s
  end.

Definition exec (evs : list event) (s : Page) : Page :=
  fold_left (fun acc e => step e acc) evs s.

(** Whether an event, taken in state [s], calls the generator. *)
Definition calls_generator (e : event) (s : Page) : bool :=
  match e with
  | ClickSend _ => true
  | IntervalFires h _ => existsb (fun e => Nat.eqb (fst e) h) (intervals s)
  | _ => false
  end.

Fixpoint generator_calls (evs : list event) (s : Page) : nat :=
  match evs with
  | [] => 0
  | e :: rest =>
      (if calls_generator e s then 1 else 0) + generator_calls rest (step e s)
  end.

(** The call of the generator made after the events [evs] have been
    handled, and its rank among all calls since the module was loaded. *)
Definition call_after (src : nat -> number) (evs : list event) : DrillValues :=
  fst (makeRandomDrillValues (exec evs (initial src))).

Definition call_number (src : nat -> number) (evs : list event) : nat :=
  S (generator_calls evs (initial src)).

(** A random source within the range of [Math.random]. *)
Definition unit_range (src : nat -> number) : Prop :=
  forall k, 0 <= src k /\ src k < 1.

Definition zero_source : nat -> number := fun _ => 0.

(** ** Closed forms and helpers for the statements below *)

(** The row of [r] once [prevTemp] is known. *)
Definition row_given (prevTemp : number) (r : DrillDoc) : list number :=
  let temp := doc_temp r ?? 0 in
  let rpm := doc_rpm r ?? 0 in
  let load := doc_load r ?? 0 in
  [temp; rpm; load; doc_vibration r ?? 0; doc_depth r ?? 0;
   temp - prevTemp; (load * dec 955 100) / Math_max rpm 1].

(** The rows of a window that follows the record [prev] (none for the
    start of the window). *)
Fixpoint rows_from (prev : option DrillDoc) (w : list DrillDoc)
  : list (list number) :=
  match w with
  | [] => []
  | r :: rest =>
      row_given (match prev with
                 | Some p => doc_temp p ?? 0
                 | None => doc_temp r ?? 0
                 end) r
      :: rows_from (Some r) rest
  end.

(** [sequence[i][k]]. *)
Definition entry (rows : list (list number)) (i k : nat) : option number :=
  match nth_error rows i with
  | Some row => nth_error row k
  | None => None
  end.

(** A record with every missing numeric field set to 0. *)
Definition or_zero (r : DrillDoc) : DrillDoc :=
  mkDoc (id r) (Some (doc_temp r ?? 0)) (Some (doc_rpm r ?? 0))
        (Some (doc_load r ?? 0)) (Some (doc_vibration r ?? 0))
        (Some (doc_depth r ?? 0)) (createdAt r).

(** A window whose records carry the given temperatures and nothing
    else. *)
Definition window_of_temps (ts : list Z) : list DrillDoc :=
  map (fun t => mkDoc "" (Some (int t)) None None None None None) ts.

(** The lower end of the temperature range at call [c], in the words of
    the specification: [20 + (c/1000)*10]. *)
Definition min_temperature (c : nat) : number :=
  int 20 + (int (Z.of_nat c) / int 1000) * int 10.

(** ** Further parts of the page *)

(** The values of the call of rank [c] in closed form: the wear term is
    [c / 1000] and the four draws are those of index [4 (c - 1)] on. *)
Definition sample_of_call (src : nat -> number) (c : nat) : DrillValues :=
  let degradationFactor := int (Z.of_nat c) / int 1000 in
  let k := (4 * (c - 1))%nat in
  {| temp := toFixed (int 20 + src k * int 60 + degradationFactor * int 10) 2;
     rpm := Math_round (int 5000 - degradationFactor * int 1000);
     load := toFixed (src (S k) * int 30 + degradationFactor * int 5) 2;
     vibration := toFixed (src (S (S k)) * int 10
                           + degradationFactor * int 2) 3;
     depth := toFixed (src (S (S (S k))) * int 50) 2 |}.

(** The timer fields agree: no interval, no handle and [autoSending]
    off; or one interval, held by [autoRef], and [autoSending] on. *)
Definition timer_consistent (s : Page) : Prop :=
  (0 < next_interval s)%nat
  /\ ((autoRef s = None /\ intervals s = [] /\ autoSending s = false)
      \/ (exists h, (0 < h < next_interval s)%nat
            /\ autoRef s = Some h
            /\ intervals s = [(h, 5000%nat)]
            /\ autoSending s = true)).


(** Whether an event, taken in state [s], calls the generator and then
    has its write rejected. *)
Definition write_fails (e : event) (s : Page) : bool :=
  match e with
  | ClickSend (Some _) => true
  | IntervalFires h (Some _) =>
      existsb (fun e => Nat.eqb (fst e) h) (intervals s)
  | _ => false
  end.

(** ** The sampling rate shown under the chart *)

(** The [samplingRate] hook: ['N/A'] or [avgDiff.toFixed(2) + ' s'], the
    latter kept as the number its digits denote. *)
Inductive Rate : Type :=
| RateNA
| RateSeconds (v : number).

(** [r.createdAt?.toDate()?.getTime()]: milliseconds, or [undefined]. *)
Definition getTime (r : DrillDoc) : option Z := createdAt r.

(** The predicate of [filter(Boolean)]: [undefined] and 0 are falsy. *)
Definition Boolean (t : option Z) : bool :=
  match t with
  | Some z => negb (z =? 0)%Z
  | None => false
  end.

(** The numbers left after [filter(Boolean)]. *)
Definition defined (ts : list (option Z)) : list Z :=
  flat_map (fun t => match t with Some z => [z] | None => [] end) ts.

(** [sort((a, b) => a - b)]: ascending order. *)
Fixpoint insert_time (t : Z) (l : list Z) : list Z :=
  match l with
  | [] => [t]
  | u :: rest => if (t <=? u)%Z then t :: l else u :: insert_time t rest
  end.

Definition sort_ascending (l : list Z) : list Z :=
  fold_right insert_time [] l.

(** [arr.map((x, i) => ...)] for a callback that cannot throw. *)
Fixpoint mapi_from {A B : Type} (f : A -> nat -> B) (i : nat) (l : list A)
  : list B :=
  match l with
  | [] => []
  | x :: rest => f x i :: mapi_from f (S i) rest
  end.

Definition validTimes (arr : list DrillDoc) : list Z :=
  defined (filter Boolean (map getTime arr)).

(** [times.slice(1).map((t, i) => t - times[i])]. *)
Definition diffsOf (times : list Z) : list Z :=
  mapi_from (fun t i => (t - nth i times 0)%Z) 0 (skipn 1 times).

(** The listener's update of [samplingRate] for the snapshot [arr],
    [old] being the value shown before. *)
Definition samplingRateAfter (arr : list DrillDoc) (old : Rate) : Rate :=
  if (1 <? List.length arr)%nat then
    let times := sort_ascending (validTimes arr) in
    if (1 <? List.length times)%nat then
      let diffs := diffsOf times in
      let avgDiff :=
        int (fold_left Z.add diffs 0%Z)
        / int (Z.of_nat (List.length diffs)) / int 1000 in
      RateSeconds (toFixed avgDiff 2)
    else old
  else RateNA.

(** Consecutive differences, for the proofs. *)
Fixpoint deltas (a : Z) (l : list Z) : list Z :=
  match l with
  | [] => []
  | b :: rest => (b - a)%Z :: deltas b rest
  end.

(** ** The chart and the alert flags *)

(** The names a card can select: [setSelectedMetric] is only ever called
    with one of these seven literals. *)
Inductive Metric : Type :=
| Mtemp | Mrpm | Mload | Mvibration | Mdepth | Mrul | MestTemp.

(** [r[selectedMetric]]: a stored record has no [rul] or [estTemp]. *)
Definition property (r : DrillDoc) (m : Metric) : option number :=
  match m with
  | Mtemp => doc_temp r
  | Mrpm => doc_rpm r
  | Mload => doc_load r
  | Mvibration => doc_vibration r
  | Mdepth => doc_depth r
  | Mrul | MestTemp => None
  end.

(** [v || d] for a number or [null]: 0 is falsy as well. *)
Definition or_else (v : option number) (d : number) : number :=
  match v with
  | Some x => if Qc_eq_dec x 0 then d else x
  | None => d
  end.

Record ChartData : Type := mkChart {
  labels : list string;
  data : list number
}.

Section Chart.

(** [Date.prototype.toLocaleTimeString], which depends on the locale. *)
Variable toLocaleTimeString : Z -> string.

(** The [chartData] memo.  [estimatedTemp] is a non-empty string when it
    is not [null], hence truthy. *)
Definition chartData (records : list DrillDoc) (selectedMetric : Metric)
           (rulPrediction estimatedTemp : option number) : ChartData :=
  let points := rev records in
  let labels :=
    map (fun r => match createdAt r with
                  | Some t => toLocaleTimeString t
                  | None => EmptyString
                  end) points in
  let values :=
    map (fun r => match property r selectedMetric with
                  | Some v => v
                  | None => 0
                  end) points in
  let values :=
    match selectedMetric with
    | Mrul => repeat (or_else rulPrediction 0) (List.length points)
    | MestTemp => repeat (estimatedTemp ?? 0) (List.length points)
    | _ => values
    end in
  mkChart (match labels with [] => [EmptyString] | _ => labels end)
          (match values with [] => [0] | _ => values end).

End Chart.

(** [const thresholds]. *)
Definition thresholds : DrillValues :=
  {| temp := int 70; rpm := int 4000; load := int 20;
     vibration := int 5; depth := int 40 |}.

(** [records[0] || {}]. *)
Definition latest (records : list DrillDoc) : DrillDoc :=
  match records with
  | r :: _ => r
  | [] => mkDoc "" None None None None None None
  end.

(** [v > limit] where [v] may be [undefined]: then the test is false. *)
Definition greater (v : option number) (limit : number) : bool :=
  match v with
  | Some x => match x ?= limit with Gt => true | _ => false end
  | None => false
  end.

Definition Math_abs (x : number) : number :=
  match x ?= 0 with
  | Lt => - x
  | _ => x
  end.

(** The [isAlert] prop of each card. *)
Definition isAlert (m : Metric) (records : list DrillDoc)
           (rulPrediction estimatedTemp : option number) : bool :=
  let latest := latest records in
  match m with
  | Mtemp => greater (doc_temp latest) (temp thresholds)
  | Mrpm => greater (doc_rpm latest) (rpm thresholds)
  | Mload => greater (doc_load latest) (load thresholds)
  | Mvibration => greater (doc_vibration latest) (vibration thresholds)
  | Mdepth => greater (doc_depth latest) (depth thresholds)
  | Mrul =>
      match rulPrediction with
      | Some v => match v ?= int 50 with Lt => true | _ => false end
      | None => false
      end
  | MestTemp =>
      match estimatedTemp with
      | Some e => greater (Some (Math_abs (e - (doc_temp latest ?? 0))))
                          (int 5)
      | None => false
      end
  end.

(** The record the listener delivers for values handed to [addDoc]:
    [{ id, ...values, createdAt }]. *)
Definition storedDoc (key : string) (values : DrillValues)
           (stamp : option Z) : DrillDoc :=
  mkDoc key (Some (temp values)) (Some (rpm values)) (Some (load values))
        (Some (vibration values)) (Some (depth values)) stamp.

(** The five numbers a feature row is built from: each field of the
    record as read through [??]. *)
Definition numeric_fields (r : DrillDoc)
  : number * number * number * number * number :=
  (doc_temp r ?? 0, doc_rpm r ?? 0, doc_load r ?? 0,
   doc_vibration r ?? 0, doc_depth r ?? 0).

(** Two pages for the examples: 20 records that carry a temperature and
    nothing else, on the freshly mounted page; and 20 records with the
    same readings spelled out, other ids and a timestamp, on the page
    after one sample has been sent. *)
Definition page_with_sparse_records : Page :=
  setRecords (window_of_temps (repeat 30%Z 20)) (initial zero_source).

Definition page_with_full_records : Page :=
  setRecords
    (repeat (mkDoc "x" (Some (int 30)) (Some 0) (Some 0) (Some 0) (Some 0)
                   (Some 5%Z)) 20)
    (snd (sendRandomToFirestore None (initial zero_source))).

(** ** Writes in flight

    [sendRandomToFirestore] runs up to [await addDoc(...)] when it is
    called, and its remainder runs when the write settles; the page
    handles other events in between.  The state is the page together
    with the values whose write has not settled yet, oldest first. *)
Inductive async_event : Type :=
| SendCalled
| TimerCalls (h : nat)
| WriteSettles (i : nat) (outcome : option string)
| Handled (e : event).

Definition remove_nth {A : Type} (i : nat) (l : list A) : list A :=
  firstn i l ++ skipn (S i) l.

Definition async_step (a : async_event) (st : Page * list DrillValues)
  : Page * list DrillValues :=
  let (s, flight) := st in
  match a with
  | SendCalled =>
      let (values, s') := makeRandomDrillValues s in
      (s', flight ++ [values])
  | TimerCalls h =>
      if existsb (fun e => Nat.eqb (fst e) h) (intervals s)
      then let (values, s') := makeRandomDrillValues s in
           (s', flight ++ [values])
      else st
  | WriteSettles i outcome =>
      match nth_error flight i with
      | Some values =>
          (match outcome with
           | None => setStatus "sent" (set_written (written s ++ [values]) s)
           | Some msg => setStatus ("error: " ++ msg)%string s
           end,
           remove_nth i flight)
      | None => st
      end
  | Handled e => (step e s, flight)
  end.

Definition async_exec (evs : list async_event)
           (st : Page * list DrillValues) : Page * list DrillValues :=
  fold_left (fun acc a => async_step a acc) evs st.

(** Whether an event, taken in state [st], is the rejection of a
    write. *)
Definition rejects (a : async_event) (st : Page * list DrillValues)
  : bool :=
  match a with
  | WriteSettles i (Some _) =>
      match nth_error (snd st) i with
      | Some _ => true
      | None => false
      end
  | Handled e => write_fails e (fst st)
  | _ => false
  end.

Fixpoint rejected_writes (evs : list async_event)
         (st : Page * list DrillValues) : nat :=
  match evs with
  | [] => 0
  | a :: rest =>
      (if rejects a st then 1 else 0) + rejected_writes rest (async_step a st)
  end.

(** * Arithmetic of the number model *)

Section Numbers.

Lemma this_int (z : Z) : (this (int z) == inject_Z z)%Q.
Proof. unfold int, Q2Qc; cbn [this]. apply Qred_correct. Qed.

Lemma this_plus (x y : Qc) : (this (x + y) == this x + this y)%Q.
Proof. unfold Qcplus, Q2Qc; cbn [this]. apply Qred_correct. Qed.

Lemma this_mult (x y : Qc) : (this (x * y) == this x * this y)%Q.
Proof. unfold Qcmult, Q2Qc; cbn [this]. apply Qred_correct. Qed.

Lemma this_dec (n : Z) (d : positive) : (this (dec n d) == n # d)%Q.
Proof. unfold dec, Q2Qc; cbn [this]. apply Qred_correct. Qed.

Lemma int_plus (a b : Z) : int (a + b) = int a + int b.
Proof.
  apply Qc_is_canon. rewrite this_plus, !this_int.
  rewrite inject_Z_plus. reflexivity.
Qed.

Lemma int_opp (a : Z) : int (- a) = - int a.
Proof.
  apply Qc_is_canon. unfold Qcopp, int, Q2Qc; cbn [this].
  rewrite !Qred_correct, inject_Z_opp. reflexivity.
Qed.

Lemma int_minus (a b : Z) : int (a - b) = int a - int b.
Proof.
  unfold Qcminus. rewrite <- int_opp, <- int_plus. reflexivity.
Qed.

Lemma int_mult (a b : Z) : int (a * b) = int a * int b.
Proof.
  apply Qc_is_canon. rewrite this_mult, !this_int.
  rewrite inject_Z_mult. reflexivity.
Qed.

Lemma int_le (a b : Z) : (a <= b)%Z <-> int a <= int b.
Proof.
  unfold Qcle. rewrite !this_int. rewrite <- Zle_Qle. reflexivity.
Qed.

Lemma int_lt (a b : Z) : (a < b)%Z <-> int a < int b.
Proof.
  unfold Qclt. rewrite !this_int. rewrite <- Zlt_Qlt. reflexivity.
Qed.

Lemma int_0 : int 0 = 0.
Proof. apply Qc_is_canon. reflexivity. Qed.

Lemma int_pos_neq0 (z : Z) : (0 < z)%Z -> int z <> 0.
Proof.
  intros Hz Heq. apply int_lt in Hz. rewrite int_0, Heq in Hz.
  exact (Qclt_not_eq _ _ Hz eq_refl).
Qed.

(** The floor of a rational between two consecutive integers. *)
Lemma Qfloor_between (x : Q) (n : Z) :
  (inject_Z n <= x)%Q -> (x < inject_Z (n + 1))%Q -> Qfloor x = n.
Proof.
  intros Hlo Hhi.
  pose proof (Qfloor_le x) as Hf1.
  pose proof (Qlt_floor x) as Hf2.
  assert (Qfloor x < n + 1)%Z.
  { rewrite Zlt_Qlt. eapply Qle_lt_trans; eassumption. }
  assert (n < Qfloor x + 1)%Z.
  { rewrite Zlt_Qlt. eapply Qle_lt_trans; eassumption. }
  lia.
Qed.

Lemma Qfloor_int_half (z : Z) : Qfloor (int z + dec 1 2) = z.
Proof.
  apply Qfloor_between; rewrite this_int, this_dec.
  - rewrite <- (Qplus_0_r (inject_Z z)) at 1.
    apply Qplus_le_r. discriminate.
  - rewrite inject_Z_plus. apply Qplus_lt_r. reflexivity.
Qed.

(** [Math.round] leaves an integer alone. *)
Lemma Math_round_int (z : Z) : Math_round (int z) = int z.
Proof. unfold Math_round. rewrite Qfloor_int_half. reflexivity. Qed.

(** Dividing by 1000 and multiplying back is exact on rationals. *)
Lemma degradation_exact (x : number) : x / int 1000 * int 1000 = x.
Proof. field. apply int_pos_neq0. lia. Qed.

Lemma Math_max_ge_r (a b : number) : b <= Math_max a b.
Proof.
  unfold Math_max. destruct (a ?= b) eqn:E.
  - apply Qceq_alt in E. subst. apply Qcle_refl.
  - apply Qcle_refl.
  - apply Qcgt_alt in E. apply Qclt_le_weak. exact E.
Qed.

Lemma Math_max_ge_l (a b : number) : a <= Math_max a b.
Proof.
  unfold Math_max. destruct (a ?= b) eqn:E.
  - apply Qcle_refl.
  - apply Qclt_alt in E. apply Qclt_le_weak. exact E.
  - apply Qcle_refl.
Qed.

(** The divisor of the torque estimate is at least 1, hence not 0. *)
Lemma Math_max_divisor (rpm : number) :
  1 <= Math_max rpm 1 /\ Math_max rpm 1 <> 0.
Proof.
  pose proof (Math_max_ge_r rpm 1) as H. split; [exact H|].
  intro E. rewrite E in H. revert H. apply Qclt_not_le. reflexivity.
Qed.

Lemma pow10_pos (f : nat) : 0 < pow10 f.
Proof.
  unfold pow10. rewrite <- int_0. apply (proj1 (int_lt _ _)).
  apply Z.pow_pos_nonneg; lia.
Qed.

Lemma pow10_neq0 (f : nat) : pow10 f <> 0.
Proof.
  intro E. pose proof (pow10_pos f) as H. rewrite E in H.
  exact (Qclt_not_eq _ _ H eq_refl).
Qed.

Lemma div_pow10_le (a b : number) (f : nat) :
  a <= b -> a / pow10 f <= b / pow10 f.
Proof.
  intro H. apply (Qcmult_lt_0_le_reg_r _ _ (pow10 f) (pow10_pos f)).
  replace (a / pow10 f * pow10 f) with a by (field; apply pow10_neq0).
  replace (b / pow10 f * pow10 f) with b by (field; apply pow10_neq0).
  exact H.
Qed.

Lemma scaled_nonneg (k : Z) (f : nat) : (0 <= k)%Z -> 0 <= int k / pow10 f.
Proof.
  intro Hk. replace 0 with (0 / pow10 f) by (field; apply pow10_neq0).
  apply div_pow10_le. rewrite <- int_0. apply (proj1 (int_le _ _)). exact Hk.
Qed.

(** Rounding to [f] decimals never goes below a non-negative number
    that already has at most [f] decimals. *)
Lemma toFixed_lower (k : Z) (f : nat) (x : number) :
  (0 <= k)%Z -> int k / pow10 f <= x -> int k / pow10 f <= toFixed x f.
Proof.
  intros Hk Hx. pose proof (scaled_nonneg k f Hk) as Hb.
  unfold toFixed. destruct (x ?= 0) eqn:E0.
  - unfold toFixed_magnitude.
    destruct (x ?= int (10 ^ 21)); try exact Hx.
    apply div_pow10_le. apply (proj1 (int_le _ _)).
    rewrite <- (Qfloor_Z k) at 1. apply Qfloor_resp_le.
    assert (Hs : int k <= x * pow10 f).
    { replace (int k) with (int k / pow10 f * pow10 f)
        by (field; apply pow10_neq0).
      apply Qcmult_le_compat_r; [exact Hx|].
      apply Qclt_le_weak, pow10_pos. }
    unfold Qcle in Hs. rewrite this_int, this_mult in Hs.
    rewrite this_dec.
    rewrite <- (Qplus_0_r (inject_Z k)).
    apply Qplus_le_compat; [exact Hs | discriminate].
  - apply Qclt_alt in E0. exfalso.
    apply (Qclt_not_le _ _ E0). eapply Qcle_trans; eassumption.
  - unfold toFixed_magnitude.
    destruct (x ?= int (10 ^ 21)); try exact Hx.
    apply div_pow10_le. apply (proj1 (int_le _ _)).
    rewrite <- (Qfloor_Z k) at 1. apply Qfloor_resp_le.
    assert (Hs : int k <= x * pow10 f).
    { replace (int k) with (int k / pow10 f * pow10 f)
        by (field; apply pow10_neq0).
      apply Qcmult_le_compat_r; [exact Hx|].
      apply Qclt_le_weak, pow10_pos. }
    unfold Qcle in Hs. rewrite this_int, this_mult in Hs.
    rewrite this_dec.
    rewrite <- (Qplus_0_r (inject_Z k)).
    apply Qplus_le_compat; [exact Hs | discriminate].
Qed.

(** Such a number is left unchanged. *)
Lemma toFixed_exact (k : Z) (f : nat) :
  (0 <= k)%Z -> toFixed (int k / pow10 f) f = int k / pow10 f.
Proof.
  intro Hk. pose proof (scaled_nonneg k f Hk) as Hb.
  assert (Hm : toFixed_magnitude (int k / pow10 f) f = int k / pow10 f).
  { unfold toFixed_magnitude.
    destruct (int k / pow10 f ?= int (10 ^ 21)); try reflexivity.
    f_equal. f_equal.
    apply Qfloor_between.
    - rewrite this_dec, <- this_mult.
      replace (int k / pow10 f * pow10 f) with (int k)
        by (field; apply pow10_neq0).
      rewrite this_int. rewrite <- (Qplus_0_r (inject_Z k)) at 1.
      apply Qplus_le_r. discriminate.
    - rewrite this_dec, <- this_mult.
      replace (int k / pow10 f * pow10 f) with (int k)
        by (field; apply pow10_neq0).
      rewrite this_int, inject_Z_plus. apply Qplus_lt_r. reflexivity. }
  unfold toFixed. destruct (int k / pow10 f ?= 0) eqn:E0; try exact Hm.
  apply Qclt_alt in E0. exfalso. exact (Qclt_not_le _ _ E0 Hb).
Qed.

End Numbers.

(** * The generator and its counter *)

Section Generator.

Lemma generator_cycle (s : Page) :
  cycle (snd (makeRandomDrillValues s)) = (cycle s + 1)%Z.
Proof. reflexivity. Qed.

Lemma generator_source (s : Page) :
  random_source (snd (makeRandomDrillValues s)) = random_source s.
Proof. reflexivity. Qed.

Lemma generator_intervals (s : Page) :
  intervals (snd (makeRandomDrillValues s)) = intervals s.
Proof. reflexivity. Qed.

Lemma generator_rpm (s : Page) :
  rpm (fst (makeRandomDrillValues s)) = int (5000 - (cycle s + 1)).
Proof.
  cbn. rewrite degradation_exact, <- int_minus. apply Math_round_int.
Qed.

Lemma send_cycle (outcome : option string) (s : Page) :
  cycle (snd (sendRandomToFirestore outcome s)) = (cycle s + 1)%Z.
Proof. destruct outcome; reflexivity. Qed.

Lemma startAutoSend_cycle (ms : nat) (s : Page) :
  cycle (snd (startAutoSend ms s)) = cycle s.
Proof. unfold startAutoSend. destruct (truthy (autoRef s)); reflexivity. Qed.

Lemma stopAutoSend_cycle (s : Page) :
  cycle (snd (stopAutoSend s)) = cycle s.
Proof.
  unfold stopAutoSend.
  destruct (truthy (autoRef s)); [destruct (autoRef s)|]; reflexivity.
Qed.

(** Each event adds to [cycle] exactly the number of generator calls it
    makes: one or none. *)
Lemma step_cycle (e : event) (s : Page) :
  cycle (step e s)
  = (cycle s + Z.of_nat (if calls_generator e s then 1 else 0))%Z.
Proof.
  destruct e; cbn [step calls_generator].
  - rewrite send_cycle. reflexivity.
  - destruct (autoSending s); [|rewrite startAutoSend_cycle]; cbn; lia.
  - destruct (autoSending s); [rewrite stopAutoSend_cycle|]; cbn; lia.
  - cbn; lia.
  - destruct (existsb _ (intervals s)); [rewrite send_cycle|]; cbn; lia.
  - cbn; lia.
  - cbn; lia.
  - cbn; lia.
  - cbn; lia.
Qed.

Lemma exec_cycle (evs : list event) (s : Page) :
  cycle (exec evs s) = (cycle s + Z.of_nat (generator_calls evs s))%Z.
Proof.
  revert s. induction evs as [|e rest IH]; intro s.
  - cbn. lia.
  - change (exec (e :: rest) s) with (exec rest (step e s)).
    rewrite IH, step_cycle. cbn [generator_calls]. lia.
Qed.

(** In the state reached from the initial one, [cycle] is the number of
    calls made so far, so the next call is the one of rank
    [call_number]. *)
Lemma cycle_before_call (src : nat -> number) (evs : list event) :
  (cycle (exec evs (initial src)) + 1)%Z = Z.of_nat (call_number src evs).
Proof.
  rewrite exec_cycle. unfold call_number. cbn [cycle initial]. lia.
Qed.

Lemma call_after_rpm (src : nat -> number) (evs : list event) :
  rpm (call_after src evs) = int (5000 - Z.of_nat (call_number src evs)).
Proof.
  unfold call_after. rewrite generator_rpm, cycle_before_call. reflexivity.
Qed.

Lemma generator_calls_sends (n : nat) (s : Page) :
  generator_calls (repeat (ClickSend None) n) s = n.
Proof.
  revert s. induction n as [|n IH]; intro s; cbn [repeat generator_calls].
  - reflexivity.
  - rewrite IH. reflexivity.
Qed.

(** Every rank from 1 on is the rank of some call. *)
Lemma call_number_reached (src : nat -> number) (c : nat) :
  (1 <= c)%nat -> exists evs, call_number src evs = c.
Proof.
  intro Hc. exists (repeat (ClickSend None) (c - 1)).
  unfold call_number. rewrite generator_calls_sends. lia.
Qed.

End Generator.

Section Temperature.

Lemma pow10_2 : pow10 2 = int 100.
Proof. reflexivity. Qed.

Lemma min_temperature_scaled (c : nat) :
  min_temperature c = int (2000 + Z.of_nat c) / pow10 2.
Proof.
  unfold min_temperature. rewrite pow10_2, int_plus.
  replace (int 2000) with (int 20 * int 100)
    by (rewrite <- int_mult; reflexivity).
  replace (int 1000) with (int 10 * int 100)
    by (rewrite <- int_mult; reflexivity).
  field. split; apply int_pos_neq0; lia.
Qed.

Lemma generator_temp (s : Page) :
  temp (fst (makeRandomDrillValues s))
  = toFixed (int 20 + random_source s (drawn s) * int 60
             + int (cycle s + 1) / int 1000 * int 10) 2.
Proof. reflexivity. Qed.

Lemma exec_source (evs : list event) (s : Page) :
  random_source (exec evs s) = random_source s.
Proof.
  revert s. induction evs as [|e rest IH]; intro s; [reflexivity|].
  change (exec (e :: rest) s) with (exec rest (step e s)).
  rewrite IH. destruct e; cbn [step]; try reflexivity.
  - destruct outcome; reflexivity.
  - destruct (autoSending s); [reflexivity|].
    unfold startAutoSend. destruct (truthy (autoRef s)); reflexivity.
  - destruct (autoSending s); [|reflexivity].
    unfold stopAutoSend.
    destruct (truthy (autoRef s)); [destruct (autoRef s)|]; reflexivity.
  - destruct (existsb _ (intervals s)); [|reflexivity].
    destruct outcome; reflexivity.
Qed.

Lemma call_after_temp (src : nat -> number) (evs : list event) :
  temp (call_after src evs)
  = toFixed (min_temperature (call_number src evs)
             + src (drawn (exec evs (initial src))) * int 60) 2.
Proof.
  unfold call_after. rewrite generator_temp, cycle_before_call, exec_source.
  unfold min_temperature. cbn [random_source initial]. f_equal. ring.
Qed.

End Temperature.

(** * The model evaluated on small inputs *)

Example round_ties_upwards :
  Math_round (dec 5 2) = int 3 /\ Math_round (dec (-5) 2) = int (-2).
Proof. split; apply Qc_is_canon; reflexivity. Qed.

Example toFixed_two_decimals :
  toFixed (dec 123456 10000) 2 = dec 1235 100
  /\ toFixed (dec (-123456) 10000) 2 = dec (-1235) 100.
Proof. split; apply Qc_is_canon; reflexivity. Qed.

Example first_call :
  rpm (call_after zero_source []) = int 4999
  /\ temp (call_after zero_source []) = dec 2001 100
  /\ cycle (snd (makeRandomDrillValues (initial zero_source))) = 1%Z
  /\ drawn (snd (makeRandomDrillValues (initial zero_source))) = 4%nat.
Proof.
  split; [apply Qc_is_canon; reflexivity|].
  split; [apply Qc_is_canon; reflexivity|].
  split; reflexivity.
Qed.

Example start_twice_one_interval :
  intervals (exec [ClickStart; ClickStart] (initial zero_source))
  = [(1, 5000)]%nat
  /\ intervals (exec [ClickStart; ClickStop] (initial zero_source)) = [].
Proof. split; reflexivity. Qed.

Example row_with_rpm_zero :
  sequence [mkDoc "a" (Some (int 30)) (Some 0) (Some (int 10))
                  (Some (int 2)) (Some (int 5)) None]
  = Normal [[int 30; 0; int 10; int 2; int 5; int 30 - int 30;
             (int 10 * dec 955 100) / Math_max 0 1]]
  /\ (int 10 * dec 955 100) / Math_max 0 1 = dec 955 10.
Proof. split; [reflexivity | apply Qc_is_canon; reflexivity]. Qed.

(** * Claims about the generator *)

(** C1.  The call of rank [c] (any events in between) yields
    [rpm = Math.round(5000 - (c/1000)*1000)], which is [5000 - c]; a later
    call never yields a larger value; nothing clamps it, so every call of
    rank above 5000 yields a negative value. *)
Theorem rpm_of_call (src : nat -> number) (evs : list event) (c : nat) :
  call_number src evs = c ->
  (1 <= c)%nat
  /\ rpm (call_after src evs)
     = Math_round (int 5000 - (int (Z.of_nat c) / int 1000) * int 1000)
  /\ rpm (call_after src evs) = int (5000 - Z.of_nat c)
  /\ (forall evs', (c <= call_number src evs')%nat ->
        rpm (call_after src evs') <= rpm (call_after src evs))
  /\ ((5000 < c)%nat -> rpm (call_after src evs) < 0).
Proof.
  intro Hc. split; [unfold call_number in Hc; lia|].
  split.
  { rewrite call_after_rpm, Hc, degradation_exact, <- int_minus.
    symmetry. apply Math_round_int. }
  split; [rewrite call_after_rpm, Hc; reflexivity|].
  split.
  - intros evs' Hle. rewrite !call_after_rpm, Hc.
    apply (proj1 (int_le _ _)). lia.
  - intro Hbig. rewrite call_after_rpm, Hc, <- int_0.
    apply (proj1 (int_lt _ _)). lia.
Qed.

Lemma rpm_of_call_witness :
  (1 <= 2)%nat
  /\ rpm (call_after zero_source [ClickSend None])
     = Math_round (int 5000 - (int (Z.of_nat 2) / int 1000) * int 1000)
  /\ rpm (call_after zero_source [ClickSend None]) = int (5000 - Z.of_nat 2)
  /\ (forall evs', (2 <= call_number zero_source evs')%nat ->
        rpm (call_after zero_source evs')
        <= rpm (call_after zero_source [ClickSend None]))
  /\ ((5000 < 2)%nat -> rpm (call_after zero_source [ClickSend None]) < 0).
Proof.
  apply (rpm_of_call zero_source [ClickSend None] 2). reflexivity.
Defined.

(** C4.  With any random source in [0, 1), the temperature of the call of
    rank [c] is at least [20 + (c/1000)*10]; that bound is reached when
    the draw is 0; and the bound strictly increases with [c]. *)
Theorem temp_lower_bound (src : nat -> number) (evs : list event) (c : nat) :
  unit_range src ->
  call_number src evs = c ->
  min_temperature c <= temp (call_after src evs)
  /\ temp (call_after zero_source evs)
     = min_temperature (call_number zero_source evs)
  /\ min_temperature c < min_temperature (S c).
Proof.
  intros Hsrc Hc. split; [|split].
  - rewrite call_after_temp, Hc.
    rewrite min_temperature_scaled at 1.
    apply toFixed_lower; [lia|].
    rewrite <- min_temperature_scaled.
    rewrite <- (Qcplus_0_r (min_temperature c)) at 1.
    apply Qcplus_le_compat; [apply Qcle_refl|].
    replace 0 with (0 * int 60) by ring.
    apply Qcmult_le_compat_r; [apply Hsrc|].
    rewrite <- int_0. apply (proj1 (int_le _ _)). lia.
  - rewrite call_after_temp. unfold zero_source.
    replace (min_temperature (call_number (fun _ => 0) evs) + 0 * int 60)
      with (min_temperature (call_number (fun _ => 0) evs)) by ring.
    rewrite min_temperature_scaled. apply toFixed_exact. lia.
  - rewrite !min_temperature_scaled.
    apply Qclt_minus_iff.
    replace (int (2000 + Z.of_nat (S c)) / pow10 2
             + - (int (2000 + Z.of_nat c) / pow10 2))
      with (int 1 / pow10 2).
    + reflexivity.
    + rewrite Nat2Z.inj_succ.
      replace (2000 + Z.succ (Z.of_nat c))%Z
        with ((2000 + Z.of_nat c) + 1)%Z by lia.
      rewrite (int_plus (2000 + Z.of_nat c) 1).
      field. apply pow10_neq0.
Qed.

Lemma temp_lower_bound_witness :
  min_temperature 1 <= temp (call_after zero_source [])
  /\ temp (call_after zero_source [])
     = min_temperature (call_number zero_source [])
  /\ min_temperature 1 < min_temperature 2.
Proof.
  apply (temp_lower_bound zero_source [] 1).
  - intro k. split; [apply Qcle_refl | reflexivity].
  - reflexivity.
Defined.

(** C6.  The counter is 0 when the module is loaded; a call of the
    generator adds exactly 1 and computes its values from the incremented
    counter; no event of the page lowers the counter; and of two calls
    made one after the other, with any events in between, the second
    sees a strictly larger counter. *)
Theorem cycle_never_reset (src : nat -> number) :
  cycle (initial src) = 0%Z
  /\ (forall s, cycle (snd (makeRandomDrillValues s)) = (cycle s + 1)%Z)
  /\ (forall s,
        fst (makeRandomDrillValues s)
        = let degradationFactor := int (cycle s + 1) / int 1000 in
          {| temp := toFixed (int 20 + random_source s (drawn s) * int 60
                              + degradationFactor * int 10) 2;
             rpm := Math_round (int 5000 - degradationFactor * int 1000);
             load := toFixed (random_source s (S (drawn s)) * int 30
                              + degradationFactor * int 5) 2;
             vibration := toFixed (random_source s (S (S (drawn s))) * int 10
                                   + degradationFactor * int 2) 3;
             depth := toFixed (random_source s (S (S (S (drawn s))))
                               * int 50) 2 |})
  /\ (forall e s, (cycle s <= cycle (step e s))%Z)
  /\ (forall evs s, (cycle s <= cycle (exec evs s))%Z)
  /\ (forall evs s,
        (cycle (snd (makeRandomDrillValues s))
         < cycle (snd (makeRandomDrillValues
                         (exec evs (snd (makeRandomDrillValues s))))))%Z).
Proof.
  split; [reflexivity|].
  split; [intro s; reflexivity|].
  split; [intro s; reflexivity|].
  split; [intros e s; rewrite step_cycle; lia|].
  split; [intros evs s; rewrite exec_cycle; lia|].
  intros evs s. rewrite !generator_cycle, exec_cycle, generator_cycle. lia.
Qed.

(** * The feature rows in closed form *)

Section Builder.

Lemma featureRow_first (w : list DrillDoc) (r : DrillDoc) :
  featureRow w r 0 = Normal (row_given (doc_temp r ?? 0) r).
Proof. reflexivity. Qed.

Lemma featureRow_next (w : list DrillDoc) (r p : DrillDoc) (i : nat) :
  nth_error w i = Some p ->
  featureRow w r (S i) = Normal (row_given (doc_temp p ?? 0) r).
Proof.
  intro Hp. unfold featureRow. cbn [Nat.ltb Nat.leb].
  replace (S i - 1)%nat with i by lia.
  unfold element. rewrite Hp. reflexivity.
Qed.

(** The callback never reads outside the window: at index [i > 0] the
    record before it exists. *)
Lemma Array_map_from_rows (suffix rp : list DrillDoc) :
  Array_map_from (featureRow (rev rp ++ suffix)) (List.length rp) suffix
  = Normal (rows_from (hd_error rp) suffix).
Proof.
  revert rp. induction suffix as [|r rest IH]; intro rp; [reflexivity|].
  cbn [Array_map_from rows_from].
  assert (Hrow : featureRow (rev rp ++ r :: rest) r (List.length rp)
                 = Normal (row_given (match hd_error rp with
                                      | Some p => doc_temp p ?? 0
                                      | None => doc_temp r ?? 0
                                      end) r)).
  { destruct rp as [|p rp']; [reflexivity|].
    cbn [List.length hd_error]. apply featureRow_next.
    cbn [rev]. rewrite <- app_assoc.
    rewrite nth_error_app2 by (rewrite length_rev; lia).
    rewrite length_rev, Nat.sub_diag. reflexivity. }
  rewrite Hrow. cbn [bind].
  specialize (IH (r :: rp)). cbn [rev List.length hd_error] in IH.
  rewrite <- app_assoc in IH. cbn [app] in IH.
  rewrite IH. reflexivity.
Qed.

Lemma sequence_rows (w : list DrillDoc) :
  sequence w = Normal (rows_from None w).
Proof. apply (Array_map_from_rows w []). Qed.

Lemma rows_from_length (w : list DrillDoc) (prev : option DrillDoc) :
  List.length (rows_from prev w) = List.length w.
Proof.
  revert prev. induction w as [|r rest IH]; intro prev; [reflexivity|].
  cbn. rewrite IH. reflexivity.
Qed.

Lemma rows_from_succ (w : list DrillDoc) (prev : option DrillDoc)
      (i : nat) (p r : DrillDoc) :
  nth_error w i = Some p -> nth_error w (S i) = Some r ->
  nth_error (rows_from prev w) (S i)
  = Some (row_given (doc_temp p ?? 0) r).
Proof.
  revert prev i. induction w as [|a rest IH]; intros prev i Hp Hr.
  - destruct i; discriminate.
  - destruct i as [|j].
    + cbn in Hp. injection Hp as ->.
      destruct rest as [|b rest']; [discriminate|].
      cbn in Hr. injection Hr as ->. reflexivity.
    + cbn [rows_from nth_error]. apply IH; assumption.
Qed.

Lemma rows_from_nth (w : list DrillDoc) (prev : option DrillDoc)
      (i : nat) (row : list number) :
  nth_error (rows_from prev w) i = Some row ->
  exists r prevTemp, nth_error w i = Some r /\ row = row_given prevTemp r.
Proof.
  revert prev i. induction w as [|a rest IH]; intros prev i Hrow.
  - destruct i; discriminate.
  - destruct i as [|j].
    + cbn in Hrow. injection Hrow as <-.
      eexists; eexists; split; reflexivity.
    + cbn [rows_from nth_error] in Hrow. cbn [nth_error].
      apply (IH _ _ Hrow).
Qed.

Lemma rows_from_width (w : list DrillDoc) (prev : option DrillDoc) :
  Forall (fun row => List.length row = 7%nat) (rows_from prev w).
Proof.
  revert prev. induction w as [|r rest IH]; intro prev; cbn.
  - constructor.
  - constructor; [reflexivity | apply IH].
Qed.

Lemma sequenceForEst_cons (row : list number) (rows : list (list number)) :
  sequenceForEst (row :: rows) = skipn 1 row ++ sequenceForEst rows.
Proof. reflexivity. Qed.

Lemma sequenceForEst_length (rows : list (list number)) :
  Forall (fun row => List.length row = 7%nat) rows ->
  List.length (sequenceForEst rows) = (6 * List.length rows)%nat.
Proof.
  induction 1 as [|row rows Hrow _ IH]; [reflexivity|].
  rewrite sequenceForEst_cons, length_app, length_skipn, Hrow, IH.
  cbn [List.length]. lia.
Qed.

Lemma sequenceForEst_nth (rows : list (list number)) (i k : nat)
      (row : list number) :
  Forall (fun row => List.length row = 7%nat) rows ->
  nth_error rows i = Some row -> (k < 6)%nat ->
  nth_error (sequenceForEst rows) (6 * i + k) = nth_error row (S k).
Proof.
  intro Hall. revert i. induction Hall as [|a rows Ha _ IH]; intros i Hi Hk.
  - destruct i; discriminate.
  - rewrite sequenceForEst_cons. destruct i as [|j].
    + cbn in Hi. injection Hi as ->.
      rewrite nth_error_app1 by (rewrite length_skipn; lia).
      replace (6 * 0 + k)%nat with k by lia.
      rewrite nth_error_skipn. reflexivity.
    + cbn [nth_error] in Hi.
      rewrite nth_error_app2 by (rewrite length_skipn; lia).
      rewrite length_skipn, Ha.
      replace (6 * S j + k - (7 - 1))%nat with (6 * j + k)%nat by lia.
      apply IH; assumption.
Qed.

Lemma row_given_or_zero (prevTemp : number) (r : DrillDoc) :
  row_given prevTemp (or_zero r) = row_given prevTemp r.
Proof. reflexivity. Qed.

Lemma rows_from_or_zero (w : list DrillDoc) (prev : option DrillDoc) :
  rows_from (option_map or_zero prev) (map or_zero w) = rows_from prev w.
Proof.
  revert prev. induction w as [|r rest IH]; intro prev; [reflexivity|].
  cbn [map rows_from].
  change (Some (or_zero r)) with (option_map or_zero (Some r)).
  rewrite (IH (Some r)). destruct prev; reflexivity.
Qed.

Lemma rows_from_temperature (w : list DrillDoc) (prev : option DrillDoc)
      (i : nat) (r : DrillDoc) :
  nth_error w i = Some r ->
  entry (rows_from prev w) i 0 = Some (doc_temp r ?? 0).
Proof.
  revert prev i. induction w as [|a rest IH]; intros prev i Hr.
  - destruct i; discriminate.
  - destruct i as [|j].
    + cbn in Hr. injection Hr as ->. reflexivity.
    + cbn [nth_error] in Hr. unfold entry. cbn [rows_from nth_error].
      apply (IH (Some a) j Hr).
Qed.

Lemma window_has {A : Type} (w : list A) (i : nat) :
  (i < List.length w)%nat -> exists r, nth_error w i = Some r.
Proof.
  intro Hi. destruct (nth_error w i) as [r|] eqn:E; [eauto|].
  apply nth_error_None in E. lia.
Qed.

End Builder.

(** * Claims about the feature-window builder *)

(** C2.  For every window the builder returns one row per record; the
    temperature change of the first row is 0, and that of every later row
    is its temperature minus the temperature of the row before it.  The
    temperatures 30, 32, 31 give the changes 0, 2, -1. *)
Theorem temperature_change (w : list DrillDoc) :
  exists rows,
    sequence w = Normal rows
    /\ List.length rows = List.length w
    /\ (w <> [] -> entry rows 0 5 = Some 0)
    /\ (forall i, (S i < List.length w)%nat ->
          exists t tprev,
            entry rows (S i) 0 = Some t
            /\ entry rows i 0 = Some tprev
            /\ entry rows (S i) 5 = Some (t - tprev))
    /\ (exists rows3,
          sequence (window_of_temps [30; 32; 31]%Z) = Normal rows3
          /\ map (fun row => nth_error row 5) rows3
             = [Some 0; Some (int 2); Some (int (-1))]).
Proof.
  exists (rows_from None w).
  split; [apply sequence_rows|].
  split; [apply rows_from_length|].
  split.
  { destruct w as [|r rest]; [congruence|]. intros _.
    unfold entry. cbn [rows_from nth_error row_given]. f_equal. ring. }
  split.
  { intros i Hi.
    destruct (window_has w i) as [p Hp]; [lia|].
    destruct (window_has w (S i) Hi) as [r Hr].
    exists (doc_temp r ?? 0), (doc_temp p ?? 0).
    split; [apply rows_from_temperature; exact Hr|].
    split; [apply rows_from_temperature; exact Hp|].
    unfold entry. rewrite (rows_from_succ w None i p r Hp Hr).
    reflexivity. }
  eexists. split; [apply sequence_rows|].
  unfold window_of_temps.
  cbn [map rows_from row_given nth_error nullish doc_temp].
  rewrite <- !int_minus. reflexivity.
Qed.

(** C3.  In every row the torque estimate is [load * 9.55] divided by
    [Math.max(rpm, 1)], where [load] and [rpm] are the row's own entries
    (the record's fields, 0 when missing); the divisor is at least 1,
    never 0, and it is 1 when [rpm] is 0. *)
Theorem torque_estimate (w : list DrillDoc) :
  exists rows,
    sequence w = Normal rows
    /\ (forall i r, nth_error w i = Some r ->
          entry rows i 1 = Some (doc_rpm r ?? 0)
          /\ entry rows i 2 = Some (doc_load r ?? 0)
          /\ entry rows i 6
             = Some (((doc_load r ?? 0) * dec 955 100)
                     / Math_max (doc_rpm r ?? 0) 1)
          /\ 1 <= Math_max (doc_rpm r ?? 0) 1
          /\ Math_max (doc_rpm r ?? 0) 1 <> 0)
    /\ Math_max 0 1 = 1.
Proof.
  exists (rows_from None w).
  split; [apply sequence_rows|].
  split; [|reflexivity].
  intros i r Hr.
  assert (Hrow : exists prevTemp,
             nth_error (rows_from None w) i = Some (row_given prevTemp r)).
  { destruct (window_has (rows_from None w) i) as [row Hrow].
    - rewrite rows_from_length. apply nth_error_Some. congruence.
    - destruct (rows_from_nth _ _ _ _ Hrow) as (r' & pt & Hr' & ->).
      rewrite Hr in Hr'. injection Hr' as <-. eauto. }
  destruct Hrow as [pt Hrow]. unfold entry. rewrite Hrow.
  repeat split; try reflexivity; apply Math_max_divisor.
Qed.

(** C5.  For a window of W records the builder returns W rows of 7
    entries, and the flattened sequence has 6 * W entries: entry
    [6 * i + k] of it is entry [k + 1] of row [i], for every [k < 6]. *)
Theorem flattened_sequence (w : list DrillDoc) :
  exists rows,
    sequence w = Normal rows
    /\ List.length rows = List.length w
    /\ Forall (fun row => List.length row = 7%nat) rows
    /\ List.length (sequenceForEst rows) = (6 * List.length w)%nat
    /\ (forall i k row,
          nth_error rows i = Some row -> (k < 6)%nat ->
          nth_error (sequenceForEst rows) (6 * i + k) = nth_error row (S k)).
Proof.
  exists (rows_from None w).
  split; [apply sequence_rows|].
  split; [apply rows_from_length|].
  split; [apply rows_from_width|].
  split.
  - rewrite sequenceForEst_length by apply rows_from_width.
    rewrite rows_from_length. reflexivity.
  - intros i k row. apply sequenceForEst_nth, rows_from_width.
Qed.

(** C7.  The builder returns normally on every window, of any length; it
    returns the same rows as on the window in which every missing numeric
    field has been set to 0; on the empty window both outputs are empty;
    and the effect that calls it returns normally in every state. *)
Theorem missing_fields_are_zero (w : list DrillDoc) :
  exists rows,
    sequence w = Normal rows
    /\ sequence (map or_zero w) = Normal rows
    /\ sequence [] = Normal []
    /\ sequenceForEst [] = []
    /\ (forall s, exists posted, fst (predictionEffect s) = Normal posted).
Proof.
  exists (rows_from None w).
  split; [apply sequence_rows|].
  split.
  { rewrite sequence_rows. f_equal. apply (rows_from_or_zero w None). }
  split; [reflexivity|].
  split; [reflexivity|].
  intro s. unfold predictionEffect.
  destruct (20 <=? List.length (records s))%nat; cbn [fst].
  - rewrite sequence_rows. cbn [bind]. eauto.
  - eauto.
Qed.

(** C9.  When the record before index [i + 1] has no temperature and the
    record at [i + 1] has temperature [t], the temperature change of row
    [i + 1] is [t] itself. *)
Theorem change_after_missing_temperature
        (w : list DrillDoc) (i : nat) (p r : DrillDoc) (t : number) :
  nth_error w i = Some p ->
  nth_error w (S i) = Some r ->
  doc_temp p = None ->
  doc_temp r = Some t ->
  exists rows,
    sequence w = Normal rows /\ entry rows (S i) 5 = Some t.
Proof.
  intros Hp Hr Hnone Hsome.
  exists (rows_from None w). split; [apply sequence_rows|].
  unfold entry. rewrite (rows_from_succ w None i p r Hp Hr).
  cbn [row_given nth_error]. rewrite Hnone, Hsome. cbn [nullish].
  f_equal. ring.
Qed.

Lemma change_after_missing_temperature_witness :
  exists rows,
    sequence [mkDoc "a" None None None None None None;
              mkDoc "b" (Some (int 31)) None None None None None]
    = Normal rows
    /\ entry rows 1 5 = Some (int 31).
Proof.
  apply (change_after_missing_temperature
           [mkDoc "a" None None None None None None;
            mkDoc "b" (Some (int 31)) None None None None None]
           0
           (mkDoc "a" None None None None None None)
           (mkDoc "b" (Some (int 31)) None None None None None)
           (int 31));
    reflexivity.
Defined.

Lemma row_given_fields (prevTemp : number) (r r' : DrillDoc) :
  numeric_fields r = numeric_fields r' ->
  row_given prevTemp r = row_given prevTemp r'.
Proof.
  unfold numeric_fields, row_given. intro H.
  injection H as Ht Hr Hl Hv Hd. rewrite Ht, Hr, Hl, Hv, Hd. reflexivity.
Qed.

Lemma numeric_fields_temp (r r' : DrillDoc) :
  numeric_fields r = numeric_fields r' -> doc_temp r ?? 0 = doc_temp r' ?? 0.
Proof. unfold numeric_fields. intro H. injection H as Ht _ _ _ _. exact Ht. Qed.

(** The rows depend on the records only through the five numbers read
    from each of them. *)
Lemma rows_from_fields (w1 w2 : list DrillDoc) (p1 p2 : option DrillDoc) :
  map numeric_fields w1 = map numeric_fields w2 ->
  option_map numeric_fields p1 = option_map numeric_fields p2 ->
  rows_from p1 w1 = rows_from p2 w2.
Proof.
  revert w2 p1 p2. induction w1 as [|r1 rest1 IH]; intros w2 p1 p2 Hw Hp.
  - destruct w2; [reflexivity | discriminate].
  - destruct w2 as [|r2 rest2]; [discriminate|].
    cbn [map] in Hw.
    assert (Hr : numeric_fields r1 = numeric_fields r2) by congruence.
    assert (Hrest : map numeric_fields rest1 = map numeric_fields rest2)
      by congruence.
    cbn [rows_from]. f_equal.
    + rewrite (row_given_fields _ r1 r2 Hr). f_equal.
      destruct p1 as [q1|], p2 as [q2|]; try discriminate.
      * apply numeric_fields_temp. cbn in Hp. congruence.
      * apply numeric_fields_temp, Hr.
    + apply IH; [exact Hrest | cbn; rewrite Hr; reflexivity].
Qed.

(** C10.  What the prediction effect posts is determined by the numbers
    it reads from the records and by nothing else: two page states
    whose records agree on the five fields, read with a missing field
    as 0, post the same two sequences, whatever their ids and
    timestamps and whatever the counter, the random source, the status,
    the timer and the predictions are; the effect returns normally, and
    it leaves the state as it found it, so it makes no draw and does
    not touch the counter. *)
Theorem prediction_inputs_deterministic (s1 s2 : Page) :
  map numeric_fields (records s1) = map numeric_fields (records s2) ->
  fst (predictionEffect s1) = fst (predictionEffect s2)
  /\ (exists posted, fst (predictionEffect s1) = Normal posted)
  /\ snd (predictionEffect s1) = s1
  /\ snd (predictionEffect s2) = s2.
Proof.
  intro Hrec.
  assert (Hlen : List.length (records s1) = List.length (records s2)).
  { rewrite <- (length_map numeric_fields (records s1)), Hrec.
    apply length_map. }
  unfold predictionEffect. rewrite Hlen.
  destruct (20 <=? List.length (records s2))%nat; cbn [fst snd].
  - rewrite !sequence_rows. cbn [bind].
    rewrite (rows_from_fields (rev (firstn 20 (records s1)))
                              (rev (firstn 20 (records s2))) None None).
    + repeat split. eexists. reflexivity.
    + rewrite !map_rev, <- !firstn_map, Hrec. reflexivity.
    + reflexivity.
  - repeat split. eexists. reflexivity.
Qed.

Lemma prediction_inputs_deterministic_witness :
  fst (predictionEffect page_with_sparse_records)
  = fst (predictionEffect page_with_full_records)
  /\ (exists posted,
        fst (predictionEffect page_with_sparse_records) = Normal posted)
  /\ snd (predictionEffect page_with_sparse_records)
     = page_with_sparse_records
  /\ snd (predictionEffect page_with_full_records) = page_with_full_records.
Proof.
  apply (prediction_inputs_deterministic
           page_with_sparse_records page_with_full_records).
  reflexivity.
Defined.

(** * Further properties of the page *)

Lemma floor_scaled (x p : Qc) :
  Qfloor (x * p + dec 1 2)%Q = Qfloor (this (x * p + dec 1 2)).
Proof.
  apply Qfloor_comp. rewrite this_plus, this_mult. reflexivity.
Qed.

Lemma floor_le (y : Qc) : int (Qfloor y) <= y.
Proof. unfold Qcle. rewrite this_int. apply Qfloor_le. Qed.

Lemma floor_lt (y : Qc) : y < int (Qfloor y + 1).
Proof. unfold Qclt. rewrite this_int. apply Qlt_floor. Qed.

(** [k <= 2 * floor (y + 1/2)] as soon as [k / 2 <= y]. *)
Lemma half_floor_lower (k : Z) (y : Qc) :
  int k <= y * int 2 -> (k <= 2 * Qfloor (this (y + dec 1 2)))%Z.
Proof.
  intro H. pose proof (floor_lt (y + dec 1 2)) as Hf.
  set (m := Qfloor (this (y + dec 1 2))) in *.
  unfold Qcle in H. unfold Qclt in Hf.
  rewrite this_mult, !this_int in H.
  rewrite this_plus, this_dec, this_int, inject_Z_plus in Hf.
  assert (Hq : (inject_Z k < inject_Z (2 * m + 1))%Q).
  { rewrite inject_Z_plus, inject_Z_mult.
    change (inject_Z 2) with 2%Q in *. change (inject_Z 1) with 1%Q in *.
    lra. }
  rewrite <- Zlt_Qlt in Hq. lia.
Qed.

Lemma half_floor_upper (k : Z) (y : Qc) :
  y * int 2 < int k -> (2 * Qfloor (this (y + dec 1 2)) <= k)%Z.
Proof.
  intro H. pose proof (floor_le (y + dec 1 2)) as Hf.
  set (m := Qfloor (this (y + dec 1 2))) in *.
  unfold Qclt in H. unfold Qcle in Hf.
  rewrite this_mult, !this_int in H.
  rewrite this_plus, this_dec, this_int in Hf.
  assert (Hq : (inject_Z (2 * m) < inject_Z (k + 1))%Q).
  { rewrite inject_Z_plus, inject_Z_mult.
    change (inject_Z 2) with 2%Q in *. change (inject_Z 1) with 1%Q in *.
    lra. }
  rewrite <- Zlt_Qlt in Hq. lia.
Qed.

Lemma int_2_pos : 0 < int 2.
Proof. rewrite <- int_0. apply (proj1 (int_lt _ _)). lia. Qed.

Lemma int_2_neq0 : int 2 <> 0.
Proof. apply int_pos_neq0. lia. Qed.

Lemma half_le_int (k m : Z) : (k <= 2 * m)%Z -> int k / int 2 <= int m.
Proof.
  intro H. apply (Qcmult_lt_0_le_reg_r _ _ (int 2) int_2_pos).
  replace (int k / int 2 * int 2) with (int k) by (field; apply int_2_neq0).
  rewrite <- int_mult. apply (proj1 (int_le _ _)). lia.
Qed.

Lemma int_le_half (k m : Z) : (2 * m <= k)%Z -> int m <= int k / int 2.
Proof.
  intro H. apply (Qcmult_lt_0_le_reg_r _ _ (int 2) int_2_pos).
  replace (int k / int 2 * int 2) with (int k) by (field; apply int_2_neq0).
  rewrite <- int_mult. apply (proj1 (int_le _ _)). lia.
Qed.

Lemma half_scaled_nonneg (k : Z) (f : nat) :
  (0 <= k)%Z -> 0 <= int k / int 2 / pow10 f.
Proof.
  intro Hk. replace 0 with (0 / pow10 f) by (field; apply pow10_neq0).
  apply div_pow10_le. replace 0 with (int 0) by apply int_0.
  apply int_le_half. lia.
Qed.

Lemma not_negative (x : Qc) : 0 <= x -> (x ?= 0) <> Lt.
Proof.
  intros Hx E. apply Qclt_alt in E. exact (Qclt_not_le _ _ E Hx).
Qed.

Lemma toFixed_nonneg_arg (x : Qc) (f : nat) :
  0 <= x -> toFixed x f = toFixed_magnitude x f.
Proof.
  intro Hx. unfold toFixed. pose proof (not_negative x Hx) as Hn.
  destruct (x ?= 0); congruence.
Qed.

(** Rounding a number to [f] decimals does not take it below a
    non-negative multiple of half a unit of the last decimal that it is
    at or above. *)
Lemma toFixed_ge (k : Z) (f : nat) (x : Qc) :
  (0 <= k)%Z ->
  int k / int 2 / pow10 f <= x ->
  int k / int 2 / pow10 f <= toFixed x f.
Proof.
  intros Hk Hx.
  assert (H0 : 0 <= x).
  { eapply Qcle_trans; [apply (half_scaled_nonneg k f Hk) | exact Hx]. }
  rewrite (toFixed_nonneg_arg x f H0). unfold toFixed_magnitude.
  destruct (x ?= int (10 ^ 21)); try exact Hx.
  apply div_pow10_le. apply half_le_int.
  rewrite floor_scaled. apply half_floor_lower.
  replace (int k) with (int k / int 2 / pow10 f * (pow10 f * int 2))
    by (field; split; first [apply pow10_neq0 | apply int_2_neq0]).
  replace (x * pow10 f * int 2) with (x * (pow10 f * int 2)) by ring.
  apply Qcmult_le_compat_r; [exact Hx|].
  apply Qclt_le_weak.
  replace 0 with (0 * int 2) by ring.
  apply Qcmult_lt_compat_r; [apply int_2_pos | apply pow10_pos].
Qed.

Lemma toFixed_le (k : Z) (f : nat) (x : Qc) :
  0 <= x ->
  x < int k / int 2 / pow10 f ->
  toFixed x f <= int k / int 2 / pow10 f.
Proof.
  intros H0 Hx.
  rewrite (toFixed_nonneg_arg x f H0). unfold toFixed_magnitude.
  destruct (x ?= int (10 ^ 21)); try (apply Qclt_le_weak; exact Hx).
  apply div_pow10_le. apply int_le_half.
  rewrite floor_scaled. apply half_floor_upper.
  replace (int k) with (int k / int 2 / pow10 f * (pow10 f * int 2))
    by (field; split; first [apply pow10_neq0 | apply int_2_neq0]).
  replace (x * pow10 f * int 2) with (x * (pow10 f * int 2)) by ring.
  apply Qcmult_lt_compat_r; [|exact Hx].
  replace 0 with (0 * int 2) by ring.
  apply Qcmult_lt_compat_r; [apply int_2_pos | apply pow10_pos].
Qed.

Lemma Qcplus_lt_compat_r (a b c : Qc) : a < b -> a + c < b + c.
Proof.
  unfold Qclt. rewrite !this_plus. intro H. apply Qplus_lt_l. exact H.
Qed.

(** A draw scaled by [a] and shifted by a wear term [w] on the half-unit
    grid stays within [[w, a + w]] after rounding. *)
Lemma toFixed_range (r : Qc) (a k : Z) (f : nat) :
  0 <= r -> r < 1 -> (0 < a)%Z -> (0 <= k)%Z ->
  int k / int 2 / pow10 f <= toFixed (r * int a + int k / int 2 / pow10 f) f
  /\ toFixed (r * int a + int k / int 2 / pow10 f) f
     <= int a + int k / int 2 / pow10 f.
Proof.
  intros Hr0 Hr1 Ha Hk.
  set (w := int k / int 2 / pow10 f).
  assert (Hw : 0 <= w) by (apply half_scaled_nonneg; exact Hk).
  assert (Ha0 : 0 < int a).
  { rewrite <- int_0. apply (proj1 (int_lt _ _)). exact Ha. }
  assert (Hra : 0 <= r * int a).
  { replace 0 with (0 * int a) by ring.
    apply Qcmult_le_compat_r; [exact Hr0 | apply Qclt_le_weak; exact Ha0]. }
  split.
  - apply toFixed_ge; [exact Hk|].
    fold w. rewrite <- (Qcplus_0_l w) at 1.
    apply Qcplus_le_compat; [exact Hra | apply Qcle_refl].
  - replace (int a + w)
      with (int (2 * a * 10 ^ Z.of_nat f + k) / int 2 / pow10 f).
    + apply toFixed_le.
      * rewrite <- (Qcplus_0_l 0).
        apply Qcplus_le_compat; assumption.
      * replace (int (2 * a * 10 ^ Z.of_nat f + k) / int 2 / pow10 f)
          with (1 * int a + w).
        { apply Qcplus_lt_compat_r.
          apply Qcmult_lt_compat_r; assumption. }
        unfold w. rewrite int_plus, !int_mult. fold (pow10 f).
        field. split; first [apply pow10_neq0 | apply int_2_neq0].
    + unfold w. rewrite int_plus, !int_mult. fold (pow10 f).
      field. split; first [apply pow10_neq0 | apply int_2_neq0].
Qed.

Lemma generator_drawn (s : Page) :
  drawn (snd (makeRandomDrillValues s)) = (drawn s + 4)%nat.
Proof. cbn. lia. Qed.

Lemma send_drawn (outcome : option string) (s : Page) :
  drawn (snd (sendRandomToFirestore outcome s)) = (drawn s + 4)%nat.
Proof. destruct outcome; cbn; lia. Qed.

Lemma step_drawn (e : event) (s : Page) :
  drawn (step e s)
  = (drawn s + 4 * (if calls_generator e s then 1 else 0))%nat.
Proof.
  destruct e; cbn [step calls_generator].
  - rewrite send_drawn. lia.
  - destruct (autoSending s); [cbn; lia|].
    unfold startAutoSend. destruct (truthy (autoRef s)); cbn; lia.
  - destruct (autoSending s); [|cbn; lia].
    unfold stopAutoSend.
    destruct (truthy (autoRef s)); [destruct (autoRef s)|]; cbn; lia.
  - cbn; lia.
  - destruct (existsb _ (intervals s)); [rewrite send_drawn|]; lia.
  - cbn; lia.
  - cbn; lia.
  - cbn; lia.
  - cbn; lia.
Qed.

Lemma exec_drawn (evs : list event) (s : Page) :
  drawn (exec evs s) = (drawn s + 4 * generator_calls evs s)%nat.
Proof.
  revert s. induction evs as [|e rest IH]; intro s.
  - cbn. lia.
  - change (exec (e :: rest) s) with (exec rest (step e s)).
    rewrite IH, step_drawn. cbn [generator_calls].
    destruct (calls_generator e s); lia.
Qed.

Lemma generator_values (s : Page) :
  fst (makeRandomDrillValues s)
  = let degradationFactor := int (cycle s + 1) / int 1000 in
    {| temp := toFixed (int 20 + random_source s (drawn s) * int 60
                        + degradationFactor * int 10) 2;
       rpm := Math_round (int 5000 - degradationFactor * int 1000);
       load := toFixed (random_source s (S (drawn s)) * int 30
                        + degradationFactor * int 5) 2;
       vibration := toFixed (random_source s (S (S (drawn s))) * int 10
                             + degradationFactor * int 2) 3;
       depth := toFixed (random_source s (S (S (S (drawn s)))) * int 50) 2 |}.
Proof. reflexivity. Qed.

Lemma exec_drawn_initial (src : nat -> number) (evs : list event) :
  drawn (exec evs (initial src)) = (4 * (call_number src evs - 1))%nat.
Proof.
  rewrite exec_drawn. unfold call_number. cbn [drawn initial]. lia.
Qed.

Lemma call_after_closed_form (src : nat -> number) (evs : list event) :
  call_after src evs = sample_of_call src (call_number src evs).
Proof.
  unfold call_after. rewrite generator_values.
  rewrite cycle_before_call, exec_source, exec_drawn_initial. reflexivity.
Qed.

(** X1.  The values of a call depend only on its rank and on the random
    source, not on the events handled before it: the call of rank [c]
    uses the wear term [c / 1000] and the four draws of index
    [4 (c - 1)] to [4 (c - 1) + 3], in the order temp, load, vibration,
    depth. *)
Theorem call_depends_on_rank (src : nat -> number) (evs : list event) :
  call_after src evs = sample_of_call src (call_number src evs)
  /\ drawn (exec evs (initial src)) = (4 * (call_number src evs - 1))%nat
  /\ (forall evs', call_number src evs' = call_number src evs ->
        call_after src evs' = call_after src evs).
Proof.
  split; [apply call_after_closed_form|].
  split; [apply exec_drawn_initial|].
  intros evs' Heq. rewrite !call_after_closed_form, Heq. reflexivity.
Qed.

Lemma int_1000_neq0 : int 1000 <> 0.
Proof. apply int_pos_neq0. lia. Qed.

Lemma pow10_3 : pow10 3 = int 1000.
Proof. reflexivity. Qed.

Lemma temp_form (r : Qc) (c : Z) :
  int 20 + r * int 60 + int c / int 1000 * int 10
  = r * int 60 + int (4000 + 2 * c) / int 2 / pow10 2.
Proof.
  rewrite pow10_2, int_plus, int_mult.
  replace (int 4000) with (int 20 * int 2 * int 100)
    by (rewrite <- !int_mult; reflexivity).
  replace (int 1000) with (int 10 * int 100)
    by (rewrite <- int_mult; reflexivity).
  field. repeat split; apply int_pos_neq0; lia.
Qed.

Lemma load_form (r : Qc) (c : Z) :
  r * int 30 + int c / int 1000 * int 5
  = r * int 30 + int c / int 2 / pow10 2.
Proof.
  rewrite pow10_2.
  replace (int 1000) with (int 5 * int 2 * int 100)
    by (rewrite <- !int_mult; reflexivity).
  field. repeat split; apply int_pos_neq0; lia.
Qed.

Lemma vibration_form (r : Qc) (c : Z) :
  r * int 10 + int c / int 1000 * int 2
  = r * int 10 + int (4 * c) / int 2 / pow10 3.
Proof.
  rewrite pow10_3, int_mult.
  replace (int 4) with (int 2 * int 2)
    by (rewrite <- !int_mult; reflexivity).
  field. repeat split; apply int_pos_neq0; lia.
Qed.

Lemma depth_form (r : Qc) :
  r * int 50 = r * int 50 + int 0 / int 2 / pow10 2.
Proof.
  rewrite int_0. field. split; [apply int_2_neq0 | apply pow10_neq0].
Qed.

Lemma sample_bounds (src : nat -> number) (c : nat) :
  unit_range src ->
  (int (4000 + 2 * Z.of_nat c) / int 2 / pow10 2
   <= temp (sample_of_call src c)
   /\ temp (sample_of_call src c)
      <= int 60 + int (4000 + 2 * Z.of_nat c) / int 2 / pow10 2)
  /\ (int (Z.of_nat c) / int 2 / pow10 2 <= load (sample_of_call src c)
      /\ load (sample_of_call src c)
         <= int 30 + int (Z.of_nat c) / int 2 / pow10 2)
  /\ (int (4 * Z.of_nat c) / int 2 / pow10 3
      <= vibration (sample_of_call src c)
      /\ vibration (sample_of_call src c)
         <= int 10 + int (4 * Z.of_nat c) / int 2 / pow10 3)
  /\ (int 0 / int 2 / pow10 2 <= depth (sample_of_call src c)
      /\ depth (sample_of_call src c)
         <= int 50 + int 0 / int 2 / pow10 2).
Proof.
  intro Hsrc. cbn [sample_of_call temp load vibration depth].
  rewrite temp_form, load_form, vibration_form, depth_form.
  repeat split; apply toFixed_range; try apply Hsrc; lia.
Qed.

Lemma wear_temp (c : Z) :
  int 80 + int c / int 1000 * int 10
  = int 60 + int (4000 + 2 * c) / int 2 / pow10 2.
Proof.
  rewrite <- temp_form with (r := 1).
  replace (int 80) with (int 20 + int 60) by (rewrite <- int_plus; reflexivity).
  ring.
Qed.

Lemma wear_load (c : Z) :
  int c / int 1000 * int 5 = int c / int 2 / pow10 2.
Proof.
  pose proof (load_form 0 c) as E.
  replace (0 * int 30 + int c / int 1000 * int 5)
    with (int c / int 1000 * int 5) in E by ring.
  rewrite E. ring.
Qed.

Lemma wear_vibration (c : Z) :
  int c / int 1000 * int 2 = int (4 * c) / int 2 / pow10 3.
Proof.
  pose proof (vibration_form 0 c) as E.
  replace (0 * int 10 + int c / int 1000 * int 2)
    with (int c / int 1000 * int 2) in E by ring.
  rewrite E. ring.
Qed.

Lemma wear_none : int 0 / int 2 / pow10 2 = 0.
Proof.
  rewrite int_0. field. split; [apply int_2_neq0 | apply pow10_neq0].
Qed.

(** X2.  With draws in [0, 1), the temperature of the call of rank [c]
    is at most [80 + (c/1000)*10]. *)
Theorem temp_upper_bound (src : nat -> number) (evs : list event) (c : nat) :
  unit_range src ->
  call_number src evs = c ->
  temp (call_after src evs)
  <= int 80 + (int (Z.of_nat c) / int 1000) * int 10.
Proof.
  intros Hsrc Hc. rewrite call_after_closed_form, Hc, wear_temp.
  apply (sample_bounds src c Hsrc).
Qed.

Lemma temp_upper_bound_witness :
  temp (call_after zero_source [])
  <= int 80 + (int (Z.of_nat 1) / int 1000) * int 10.
Proof.
  apply (temp_upper_bound zero_source [] 1).
  - intro k. split; [apply Qcle_refl | reflexivity].
  - reflexivity.
Defined.

Lemma minus_half_unit_le (a : Qc) : a - dec 1 200 <= a.
Proof.
  unfold Qcle. unfold Qcminus. rewrite this_plus.
  assert (H : (this (- dec 1 200) <= 0)%Q) by (vm_compute; discriminate).
  rewrite <- (Qplus_0_r (this a)) at 2. apply Qplus_le_r. exact H.
Qed.

Lemma plus_half_unit_ge (a : Qc) : a <= a + dec 1 200.
Proof.
  unfold Qcle. rewrite this_plus.
  assert (H : (0 <= this (dec 1 200))%Q) by (vm_compute; discriminate).
  rewrite <- (Qplus_0_r (this a)) at 1. apply Qplus_le_r. exact H.
Qed.

(** X3.  With draws in [0, 1), the load of the call of rank [c] lies
    between the wear term [(c/1000)*5] and 30 above it, up to half a
    unit of the second decimal on either side: for odd [c] both ends
    fall halfway between two printed values and the rounding may go
    either way.  For even [c] the ends are printed values and the load
    lies between them. *)
Theorem load_range (src : nat -> number) (evs : list event) (c : nat) :
  unit_range src ->
  call_number src evs = c ->
  ((int (Z.of_nat c) / int 1000) * int 5 - dec 1 200
   <= load (call_after src evs)
   /\ load (call_after src evs)
      <= int 30 + (int (Z.of_nat c) / int 1000) * int 5 + dec 1 200)
  /\ (Nat.even c = true ->
      (int (Z.of_nat c) / int 1000) * int 5 <= load (call_after src evs)
      /\ load (call_after src evs)
         <= int 30 + (int (Z.of_nat c) / int 1000) * int 5).
Proof.
  intros Hsrc Hc. rewrite call_after_closed_form, Hc, wear_load.
  destruct (sample_bounds src c Hsrc) as (_ & (Hlo & Hhi) & _).
  split; [split|].
  - eapply Qcle_trans; [apply minus_half_unit_le | exact Hlo].
  - eapply Qcle_trans; [exact Hhi | apply plus_half_unit_ge].
  - intros _. split; assumption.
Qed.

Lemma load_range_witness :
  ((int (Z.of_nat 2) / int 1000) * int 5 - dec 1 200
   <= load (call_after zero_source [ClickSend None])
   /\ load (call_after zero_source [ClickSend None])
      <= int 30 + (int (Z.of_nat 2) / int 1000) * int 5 + dec 1 200)
  /\ (Nat.even 2 = true ->
      (int (Z.of_nat 2) / int 1000) * int 5
      <= load (call_after zero_source [ClickSend None])
      /\ load (call_after zero_source [ClickSend None])
         <= int 30 + (int (Z.of_nat 2) / int 1000) * int 5).
Proof.
  apply (load_range zero_source [ClickSend None] 2).
  - intro k. split; [apply Qcle_refl | reflexivity].
  - reflexivity.
Defined.

(** X4.  With draws in [0, 1), the vibration of the call of rank [c] lies
    between the wear term [(c/1000)*2] and 10 above it. *)
Theorem vibration_range (src : nat -> number) (evs : list event) (c : nat) :
  unit_range src ->
  call_number src evs = c ->
  (int (Z.of_nat c) / int 1000) * int 2 <= vibration (call_after src evs)
  /\ vibration (call_after src evs)
     <= int 10 + (int (Z.of_nat c) / int 1000) * int 2.
Proof.
  intros Hsrc Hc. rewrite call_after_closed_form, Hc, wear_vibration.
  apply (sample_bounds src c Hsrc).
Qed.

Lemma vibration_range_witness :
  (int (Z.of_nat 1) / int 1000) * int 2
  <= vibration (call_after zero_source [])
  /\ vibration (call_after zero_source [])
     <= int 10 + (int (Z.of_nat 1) / int 1000) * int 2.
Proof.
  apply (vibration_range zero_source [] 1).
  - intro k. split; [apply Qcle_refl | reflexivity].
  - reflexivity.
Defined.

(** X5.  With draws in [0, 1), the depth of every call lies between 0
    and 50, whatever the rank of the call: wear does not enter it. *)
Theorem depth_range (src : nat -> number) (evs : list event) :
  unit_range src ->
  0 <= depth (call_after src evs)
  /\ depth (call_after src evs) <= int 50.
Proof.
  intros Hsrc. rewrite call_after_closed_form.
  destruct (sample_bounds src (call_number src evs) Hsrc)
    as (_ & _ & _ & Hd).
  rewrite wear_none in Hd.
  replace (int 50 + 0) with (int 50) in Hd by ring. exact Hd.
Qed.

Lemma depth_range_witness :
  0 <= depth (call_after zero_source [ClickSend None])
  /\ depth (call_after zero_source [ClickSend None]) <= int 50.
Proof.
  apply (depth_range zero_source [ClickSend None]).
  intro k. split; [apply Qcle_refl | reflexivity].
Defined.

Lemma send_timer_fields (outcome : option string) (s : Page) :
  autoRef (snd (sendRandomToFirestore outcome s)) = autoRef s
  /\ intervals (snd (sendRandomToFirestore outcome s)) = intervals s
  /\ next_interval (snd (sendRandomToFirestore outcome s)) = next_interval s
  /\ autoSending (snd (sendRandomToFirestore outcome s)) = autoSending s.
Proof. destruct outcome; repeat split. Qed.

Lemma timer_consistent_fields (s s' : Page) :
  autoRef s' = autoRef s -> intervals s' = intervals s ->
  next_interval s' = next_interval s -> autoSending s' = autoSending s ->
  timer_consistent s -> timer_consistent s'.
Proof.
  unfold timer_consistent. intros -> -> -> ->. exact (fun H => H).
Qed.

Lemma step_timer_consistent (e : event) (s : Page) :
  timer_consistent s -> timer_consistent (step e s).
Proof.
  intro H.
  destruct e; cbn [step];
    try (apply (timer_consistent_fields s); [reflexivity .. | exact H]).
  - destruct (send_timer_fields outcome s) as (E1 & E2 & E3 & E4).
    apply (timer_consistent_fields s); assumption.
  - destruct (autoSending s) eqn:Hon; [exact H|].
    destruct H as [Hn [(Href & Hint & _) | (h & _ & _ & _ & Hon')]];
      [|congruence].
    unfold startAutoSend. rewrite Href.
    unfold timer_consistent. cbn. rewrite Hint.
    split; [lia|]. right. exists (next_interval s).
    repeat split; lia.
  - destruct (autoSending s) eqn:Hon; [|exact H].
    destruct H as [Hn [(_ & _ & Hoff) | (h & Hh & Href & Hint & _)]];
      [congruence|].
    unfold stopAutoSend. rewrite Href.
    destruct h as [|h']; [lia|]. cbn [truthy].
    unfold timer_consistent. cbn. rewrite Hint. cbn.
    rewrite Nat.eqb_refl. cbn.
    split; [exact Hn|]. left. repeat split.
  - destruct (existsb _ (intervals s)); [|exact H].
    destruct (send_timer_fields outcome s) as (E1 & E2 & E3 & E4).
    apply (timer_consistent_fields s); assumption.
Qed.

Lemma exec_timer_consistent (evs : list event) (s : Page) :
  timer_consistent s -> timer_consistent (exec evs s).
Proof.
  revert s. induction evs as [|e rest IH]; intros s H; [exact H|].
  change (exec (e :: rest) s) with (exec rest (step e s)).
  apply IH, step_timer_consistent, H.
Qed.

Lemma initial_timer_consistent (src : nat -> number) :
  timer_consistent (initial src).
Proof. split; [cbn; lia|]. left. repeat split. Qed.

(** * The timer handlers *)



(** X7.  In every state the page can reach at most one interval is
    registered; [autoRef] holds a handle exactly when that handle's
    5-second interval is the one registered; and [autoSending] is on
    exactly when an interval is registered. *)
Theorem one_timer_at_most (src : nat -> number) (evs : list event) :
  (List.length (intervals (exec evs (initial src))) <= 1)%nat
  /\ (forall h, autoRef (exec evs (initial src)) = Some h
               <-> intervals (exec evs (initial src)) = [(h, 5000%nat)])
  /\ (autoSending (exec evs (initial src)) = true
      <-> intervals (exec evs (initial src)) <> [])
  /\ truthy (autoRef (exec evs (initial src)))
     = autoSending (exec evs (initial src)).
Proof.
  pose proof (exec_timer_consistent evs _ (initial_timer_consistent src))
    as [Hn [(Href & Hint & Hoff) | (h & Hh & Href & Hint & Hon)]].
  - rewrite Href, Hint, Hoff. repeat split; cbn; try lia; try congruence.
  - rewrite Href, Hint, Hon. split; [cbn; lia|].
    split; [intro h'; split; congruence|].
    split; [split; congruence|].
    destruct h; [lia | reflexivity].
Qed.

Lemma start_when_on (ms : nat) (s : Page) :
  truthy (autoRef s) = true -> snd (startAutoSend ms s) = s.
Proof. intro Ht. unfold startAutoSend. rewrite Ht. reflexivity. Qed.

Lemma start_when_off (ms : nat) (s : Page) :
  truthy (autoRef s) = false ->
  snd (startAutoSend ms s)
  = setStatus "auto-started"
      (set_autoRef (Some (next_interval s))
         (set_intervals ((next_interval s, ms) :: intervals s)
            (S (next_interval s)) (setAutoSending true s))).
Proof. intro Ht. unfold startAutoSend. rewrite Ht. reflexivity. Qed.

(** X8.  Starting twice is starting once: with interval ids positive, a
    second [startAutoSend] leaves the state of the first unchanged,
    whatever its period, and from a state without a timer exactly one
    interval has been added. *)
Theorem start_is_idempotent (ms ms' : nat) (s : Page) :
  (0 < next_interval s)%nat ->
  snd (startAutoSend ms' (snd (startAutoSend ms s)))
  = snd (startAutoSend ms s)
  /\ (truthy (autoRef s) = false ->
      intervals (snd (startAutoSend ms' (snd (startAutoSend ms s))))
      = (next_interval s, ms) :: intervals s).
Proof.
  intro Hn.
  assert (Hon : truthy (autoRef (snd (startAutoSend ms s))) = true).
  { destruct (truthy (autoRef s)) eqn:Ht.
    - rewrite (start_when_on ms s Ht). exact Ht.
    - rewrite (start_when_off ms s Ht). cbn [autoRef setStatus set_autoRef].
      destruct (next_interval s); [lia | reflexivity]. }
  rewrite (start_when_on ms' _ Hon). split; [reflexivity|].
  intro Ht. rewrite (start_when_off ms s Ht). reflexivity.
Qed.

Lemma start_is_idempotent_witness :
  snd (startAutoSend 1000 (snd (startAutoSend 5000 (initial zero_source))))
  = snd (startAutoSend 5000 (initial zero_source))
  /\ (truthy (autoRef (initial zero_source)) = false ->
      intervals (snd (startAutoSend 1000
                        (snd (startAutoSend 5000 (initial zero_source)))))
      = (next_interval (initial zero_source), 5000%nat)
        :: intervals (initial zero_source)).
Proof.
  apply (start_is_idempotent 5000 1000 (initial zero_source)).
  cbn. lia.
Defined.

Lemma filter_fresh (n ms : nat) (l : list (nat * nat)) :
  Forall (fun e => (fst e < n)%nat) l ->
  filter (fun e => negb (Nat.eqb (fst e) n)) ((n, ms) :: l) = l.
Proof.
  intro H. cbn [filter fst]. rewrite Nat.eqb_refl. cbn [negb].
  induction H as [|e l He _ IH]; [reflexivity|].
  cbn [filter]. destruct (Nat.eqb_spec (fst e) n) as [E|E]; [lia|].
  cbn [negb]. rewrite IH. reflexivity.
Qed.

(** X9.  Start followed by stop is a round trip on the timer: from a
    state without a timer whose registered ids are all below the next
    id, the table of intervals is as before, the handle is [null] and
    [autoSending] is off; counter, records and stored values are
    untouched, and the status reads 'auto-stopped'. *)
Theorem start_then_stop (ms : nat) (s : Page) :
  truthy (autoRef s) = false ->
  (0 < next_interval s)%nat ->
  Forall (fun e => (fst e < next_interval s)%nat) (intervals s) ->
  intervals (snd (stopAutoSend (snd (startAutoSend ms s)))) = intervals s
  /\ autoRef (snd (stopAutoSend (snd (startAutoSend ms s)))) = None
  /\ autoSending (snd (stopAutoSend (snd (startAutoSend ms s)))) = false
  /\ status (snd (stopAutoSend (snd (startAutoSend ms s))))
     = "auto-stopped"%string
  /\ cycle (snd (stopAutoSend (snd (startAutoSend ms s)))) = cycle s
  /\ records (snd (stopAutoSend (snd (startAutoSend ms s)))) = records s
  /\ written (snd (stopAutoSend (snd (startAutoSend ms s)))) = written s.
Proof.
  intros Ht Hn Hfresh. rewrite (start_when_off ms s Ht).
  unfold stopAutoSend. cbn [autoRef setStatus set_autoRef].
  destruct (next_interval s) as [|n] eqn:En; [lia|]. cbn [truthy snd].
  unfold clearInterval. cbn [snd intervals set_intervals setStatus
    set_autoRef setAutoSending autoRef autoSending status cycle records
    written].
  rewrite (filter_fresh _ ms _ Hfresh). repeat split.
Qed.

Lemma start_then_stop_witness :
  intervals (snd (stopAutoSend (snd (startAutoSend 5000
                                       (initial zero_source)))))
  = intervals (initial zero_source)
  /\ autoRef (snd (stopAutoSend (snd (startAutoSend 5000
                                        (initial zero_source))))) = None
  /\ autoSending (snd (stopAutoSend (snd (startAutoSend 5000
                                            (initial zero_source)))))
     = false
  /\ status (snd (stopAutoSend (snd (startAutoSend 5000
                                       (initial zero_source)))))
     = "auto-stopped"%string
  /\ cycle (snd (stopAutoSend (snd (startAutoSend 5000
                                      (initial zero_source)))))
     = cycle (initial zero_source)
  /\ records (snd (stopAutoSend (snd (startAutoSend 5000
                                        (initial zero_source)))))
     = records (initial zero_source)
  /\ written (snd (stopAutoSend (snd (startAutoSend 5000
                                        (initial zero_source)))))
     = written (initial zero_source).
Proof.
  apply (start_then_stop 5000 (initial zero_source)).
  - reflexivity.
  - cbn. lia.
  - cbn. constructor.
Defined.

(** X10.  In a reachable state a timer callback whose handle is not the
    one in [autoRef] changes nothing: after a stop, or for a stale
    handle, no sample is produced and the counter stays. *)
Theorem only_current_handle_fires
        (src : nat -> number) (evs : list event) (h : nat)
        (outcome : option string) :
  autoRef (exec evs (initial src)) <> Some h ->
  step (IntervalFires h outcome) (exec evs (initial src))
  = exec evs (initial src).
Proof.
  intro Hne.
  pose proof (exec_timer_consistent evs _ (initial_timer_consistent src))
    as [Hn [(Href & Hint & Hoff) | (h0 & Hh & Href & Hint & Hon)]];
    cbn [step]; rewrite Hint; cbn [existsb fst].
  - reflexivity.
  - destruct (Nat.eqb_spec h0 h) as [E|E]; [|reflexivity].
    exfalso. apply Hne. rewrite Href, E. reflexivity.
Qed.

Lemma only_current_handle_fires_witness :
  step (IntervalFires 1 None)
       (exec [ClickStart; ClickStop] (initial zero_source))
  = exec [ClickStart; ClickStop] (initial zero_source).
Proof.
  apply (only_current_handle_fires zero_source [ClickStart; ClickStop] 1 None).
  cbn. discriminate.
Defined.







Lemma step_written_count (e : event) (s : Page) :
  (List.length (written (step e s)) + (if write_fails e s then 1 else 0)
   = List.length (written s) + (if calls_generator e s then 1 else 0))%nat.
Proof.
  destruct e; cbn [step write_fails calls_generator]; try (cbn; lia).
  - destruct outcome; cbn; rewrite ?length_app; cbn; lia.
  - destruct (autoSending s); [lia|].
    unfold startAutoSend. destruct (truthy (autoRef s)); cbn; lia.
  - destruct (autoSending s); [|lia].
    unfold stopAutoSend.
    destruct (truthy (autoRef s)); [destruct (autoRef s)|]; cbn; lia.
  - destruct (existsb _ (intervals s)).
    + destruct outcome; cbn; rewrite ?length_app; cbn; lia.
    + destruct outcome; lia.
Qed.

Lemma remove_nth_length {A : Type} (i : nat) (l : list A) (x : A) :
  nth_error l i = Some x -> S (List.length (remove_nth i l)) = List.length l.
Proof.
  intro H. assert (Hi : (i < List.length l)%nat).
  { apply nth_error_Some. congruence. }
  unfold remove_nth. rewrite length_app, length_firstn, length_skipn. lia.
Qed.

Lemma async_step_count (a : async_event) (st : Page * list DrillValues) :
  (cycle (fst (async_step a st))
   + Z.of_nat (List.length (written (fst st)) + List.length (snd st))
   = cycle (fst st)
     + Z.of_nat (List.length (written (fst (async_step a st)))
                 + List.length (snd (async_step a st))
                 + (if rejects a st then 1 else 0)))%Z.
Proof.
  destruct st as [s flight]. destruct a; cbn [async_step rejects fst snd].
  - cbn. rewrite length_app. cbn [List.length]. lia.
  - destruct (existsb _ (intervals s)); cbn [fst snd].
    + cbn. rewrite length_app. cbn [List.length]. lia.
    + lia.
  - destruct (nth_error flight i) as [values|] eqn:E; cbn [fst snd].
    + pose proof (remove_nth_length i flight values E) as Hl.
      destruct outcome; cbn; rewrite ?length_app; cbn [List.length]; lia.
    + destruct outcome; lia.
  - pose proof (step_cycle e s) as Hc.
    pose proof (step_written_count e s) as Hw.
    destruct (calls_generator e s), (write_fails e s); cbn in Hc; lia.
Qed.

(** X12.  The counter counts attempts, not stored samples.  With the
    call of [sendRandomToFirestore] and the settling of its write taken
    as separate steps, at every moment [cycle] is the number of values
    stored, plus the number of writes in flight, plus the number of
    writes rejected; a call whose write settles at once is the send of
    the event model. *)
Theorem counter_counts_attempts
        (src : nat -> number) (evs : list async_event) :
  cycle (fst (async_exec evs (initial src, [])))
  = Z.of_nat
      (List.length (written (fst (async_exec evs (initial src, []))))
       + List.length (snd (async_exec evs (initial src, [])))
       + rejected_writes evs (initial src, []))
  /\ (forall s outcome,
        async_step (WriteSettles 0 outcome) (async_step SendCalled (s, []))
        = (step (ClickSend outcome) s, [])).
Proof.
  split.
  - assert (H : forall l st,
               (cycle (fst (async_exec l st))
                + Z.of_nat (List.length (written (fst st))
                            + List.length (snd st))
                = cycle (fst st)
                  + Z.of_nat (List.length (written (fst (async_exec l st)))
                              + List.length (snd (async_exec l st))
                              + rejected_writes l st))%Z).
    { intro l. induction l as [|a rest IH]; intro st; [cbn; lia|].
      change (async_exec (a :: rest) st)
        with (async_exec rest (async_step a st)).
      cbn [rejected_writes].
      pose proof (IH (async_step a st)).
      pose proof (async_step_count a st). lia. }
    specialize (H evs (initial src, [])).
    cbn [fst snd cycle written initial List.length] in H. lia.
  - intros s outcome. destruct outcome; reflexivity.
Qed.

(** * Prediction effect: shape and window *)

Lemma window_length (l : list DrillDoc) :
  (20 <= List.length l)%nat -> List.length (rev (firstn 20 l)) = 20%nat.
Proof. intro H. rewrite length_rev, firstn_length_le; [reflexivity | exact H]. Qed.

(** X13.  The prediction effect posts nothing below 20 records; from 20
    records on it posts one batch of exactly 20 rows of 7 entries and a
    flat sequence of exactly 120 entries, however many records there
    are. *)
Theorem prediction_shape (s : Page) :
  ((20 <= List.length (records s))%nat ->
   exists rows,
     fst (predictionEffect s)
     = Normal (Some (mkRequests [rows] (sequenceForEst rows)))
     /\ List.length rows = 20%nat
     /\ Forall (fun row => List.length row = 7%nat) rows
     /\ List.length (sequenceForEst rows) = 120%nat)
  /\ ((List.length (records s) < 20)%nat ->
      fst (predictionEffect s) = Normal None).
Proof.
  unfold predictionEffect. split; intro H.
  - destruct (Nat.leb_spec 20 (List.length (records s))) as [_|]; [|lia].
    cbn [fst]. rewrite sequence_rows. cbn [bind].
    eexists. split; [reflexivity|].
    split; [rewrite rows_from_length; apply window_length, H|].
    split; [apply rows_from_width|].
    rewrite sequenceForEst_length by apply rows_from_width.
    rewrite rows_from_length, window_length by exact H. reflexivity.
  - destruct (Nat.leb_spec 20 (List.length (records s))) as [|_]; [lia|].
    reflexivity.
Qed.

Lemma window_nth (l : list DrillDoc) (i : nat) :
  (20 <= List.length l)%nat -> (i < 20)%nat ->
  nth_error (rev (firstn 20 l)) (19 - i) = nth_error l i.
Proof.
  intros Hl Hi. rewrite nth_error_rev, firstn_length_le by exact Hl.
  destruct (Nat.ltb_spec (19 - i) 20) as [_|]; [|lia].
  rewrite nth_error_firstn.
  replace (20 - S (19 - i))%nat with i by lia.
  destruct (Nat.ltb_spec i 20) as [_|]; [reflexivity | lia].
Qed.

(** X14.  With at least 20 records, newest first, row [19 - i] of the
    posted sequence is built from record [i]: the rows run from the
    20th-newest record to the newest; the temperature change of a row is
    its record's temperature minus that of the next older record, and 0
    for the oldest row; records beyond the 20 newest have no
    influence. *)
Theorem prediction_window (s : Page) :
  (20 <= List.length (records s))%nat ->
  exists rows,
    fst (predictionEffect s)
    = Normal (Some (mkRequests [rows] (sequenceForEst rows)))
    /\ (forall i r, (i < 20)%nat -> nth_error (records s) i = Some r ->
          entry rows (19 - i) 0 = Some (doc_temp r ?? 0))
    /\ (forall i r older, (i < 19)%nat ->
          nth_error (records s) i = Some r ->
          nth_error (records s) (S i) = Some older ->
          entry rows (19 - i) 5
          = Some ((doc_temp r ?? 0) - (doc_temp older ?? 0)))
    /\ entry rows 0 5 = Some 0
    /\ (forall s', firstn 20 (records s') = firstn 20 (records s) ->
          fst (predictionEffect s') = fst (predictionEffect s)).
Proof.
  intro H. unfold predictionEffect at 1.
  destruct (Nat.leb_spec 20 (List.length (records s))) as [_|]; [|lia].
  cbn [fst]. rewrite sequence_rows. cbn [bind].
  eexists. split; [reflexivity|].
  split; [|split; [|split]].
  - intros i r Hi Hr. apply rows_from_temperature.
    rewrite window_nth by assumption. exact Hr.
  - intros i r older Hi Hr Ho. unfold entry.
    replace (19 - i)%nat with (S (19 - S i)) by lia.
    rewrite (rows_from_succ _ None (19 - S i) older r).
    + reflexivity.
    + rewrite window_nth by (try assumption; lia). exact Ho.
    + replace (S (19 - S i)) with (19 - i)%nat by lia.
      rewrite window_nth by (try assumption; lia). exact Hr.
  - destruct (rev (firstn 20 (records s))) as [|r rest] eqn:E.
    + apply (f_equal (@List.length DrillDoc)) in E.
      rewrite window_length in E by exact H. discriminate.
    + unfold entry. cbn [rows_from nth_error row_given]. f_equal. ring.
  - intros s' Hsame. unfold predictionEffect.
    assert (Hl : (20 <= List.length (records s'))%nat).
    { apply (f_equal (@List.length DrillDoc)) in Hsame.
      rewrite (firstn_length_le (records s)) in Hsame by exact H.
      rewrite length_firstn in Hsame. lia. }
    destruct (Nat.leb_spec 20 (List.length (records s'))) as [_|]; [|lia].
    destruct (Nat.leb_spec 20 (List.length (records s))) as [_|]; [|lia].
    cbn [fst]. rewrite Hsame. reflexivity.
Qed.

Lemma prediction_window_witness :
  exists rows,
    fst (predictionEffect
           (setRecords (window_of_temps (repeat 30%Z 20))
                       (initial zero_source)))
    = Normal (Some (mkRequests [rows] (sequenceForEst rows)))
    /\ (forall i r, (i < 20)%nat ->
          nth_error (records (setRecords (window_of_temps (repeat 30%Z 20))
                                         (initial zero_source))) i = Some r ->
          entry rows (19 - i) 0 = Some (doc_temp r ?? 0))
    /\ (forall i r older, (i < 19)%nat ->
          nth_error (records (setRecords (window_of_temps (repeat 30%Z 20))
                                         (initial zero_source))) i = Some r ->
          nth_error (records (setRecords (window_of_temps (repeat 30%Z 20))
                                         (initial zero_source))) (S i)
          = Some older ->
          entry rows (19 - i) 5
          = Some ((doc_temp r ?? 0) - (doc_temp older ?? 0)))
    /\ entry rows 0 5 = Some 0
    /\ (forall s',
          firstn 20 (records s')
          = firstn 20 (records (setRecords
                                  (window_of_temps (repeat 30%Z 20))
                                  (initial zero_source))) ->
          fst (predictionEffect s')
          = fst (predictionEffect
                   (setRecords (window_of_temps (repeat 30%Z 20))
                               (initial zero_source)))).
Proof.
  apply (prediction_window
           (setRecords (window_of_temps (repeat 30%Z 20))
                       (initial zero_source))).
  cbn. lia.
Defined.

Lemma mapi_deltas (pre l : list Z) (a : Z) :
  mapi_from (fun t i => (t - nth i (pre ++ a :: l) 0)%Z) (List.length pre) l
  = deltas a l.
Proof.
  revert pre a. induction l as [|b rest IH]; intros pre a; [reflexivity|].
  cbn [mapi_from deltas]. f_equal.
  - rewrite app_nth2 by lia. rewrite Nat.sub_diag. reflexivity.
  - specialize (IH (pre ++ [a]) b).
    rewrite <- app_assoc, length_app in IH. cbn [app List.length] in IH.
    rewrite Nat.add_1_r in IH. exact IH.
Qed.

Lemma diffsOf_cons (a : Z) (l : list Z) : diffsOf (a :: l) = deltas a l.
Proof. apply (mapi_deltas [] l a). Qed.

Lemma deltas_length (a : Z) (l : list Z) :
  List.length (deltas a l) = List.length l.
Proof.
  revert a. induction l as [|b rest IH]; intro a; [reflexivity|].
  cbn. rewrite IH. reflexivity.
Qed.

Lemma fold_add_shift (l : list Z) (z : Z) :
  fold_left Z.add l z = (z + fold_left Z.add l 0)%Z.
Proof.
  revert z. induction l as [|a rest IH]; intro z; cbn; [lia|].
  rewrite (IH (z + a)%Z), (IH a). lia.
Qed.

Lemma last_default (l : list Z) (b d d' : Z) :
  last (b :: l) d = last (b :: l) d'.
Proof.
  revert b. induction l as [|c r IH]; intro b; [reflexivity|].
  change (last (b :: c :: r) d) with (last (c :: r) d).
  change (last (b :: c :: r) d') with (last (c :: r) d').
  apply IH.
Qed.

(** The differences telescope. *)
Lemma deltas_sum (a : Z) (l : list Z) :
  fold_left Z.add (deltas a l) 0%Z = (last (a :: l) a - a)%Z.
Proof.
  revert a. induction l as [|b rest IH]; intro a; [cbn; lia|].
  cbn [deltas fold_left]. rewrite fold_add_shift, IH.
  change (last (a :: b :: rest) a) with (last (b :: rest) a).
  rewrite (last_default rest b a b). lia.
Qed.

Lemma insert_time_in (t x : Z) (l : list Z) :
  In x (insert_time t l) <-> x = t \/ In x l.
Proof.
  induction l as [|u rest IH]; cbn.
  - intuition.
  - destruct (t <=? u)%Z; cbn; rewrite ?IH; intuition.
Qed.

Lemma sort_ascending_in (x : Z) (l : list Z) :
  In x (sort_ascending l) <-> In x l.
Proof.
  induction l as [|a rest IH]; [reflexivity|].
  change (sort_ascending (a :: rest))
    with (insert_time a (sort_ascending rest)).
  rewrite insert_time_in, IH. cbn. intuition.
Qed.

Lemma insert_time_length (t : Z) (l : list Z) :
  List.length (insert_time t l) = S (List.length l).
Proof.
  induction l as [|u rest IH]; cbn; [reflexivity|].
  destruct (t <=? u)%Z; cbn; rewrite ?IH; reflexivity.
Qed.

Lemma sort_ascending_length (l : list Z) :
  List.length (sort_ascending l) = List.length l.
Proof.
  induction l as [|a rest IH]; [reflexivity|].
  change (sort_ascending (a :: rest))
    with (insert_time a (sort_ascending rest)).
  rewrite insert_time_length, IH. reflexivity.
Qed.

Lemma insert_time_sorted (t : Z) (l : list Z) :
  StronglySorted Z.le l -> StronglySorted Z.le (insert_time t l).
Proof.
  induction 1 as [|u rest Hs IH Hu]; cbn.
  - constructor; constructor.
  - destruct (Z.leb_spec t u) as [Hle|Hgt].
    + constructor; [constructor; assumption|].
      constructor; [exact Hle|].
      revert Hu. apply Forall_impl. intros; lia.
    + constructor; [exact IH|].
      apply Forall_forall. intros x Hx. apply insert_time_in in Hx.
      destruct Hx as [->|Hx]; [lia|].
      rewrite Forall_forall in Hu. apply Hu, Hx.
Qed.

Lemma sort_ascending_sorted (l : list Z) :
  StronglySorted Z.le (sort_ascending l).
Proof.
  induction l as [|a rest IH]; [constructor|].
  change (sort_ascending (a :: rest))
    with (insert_time a (sort_ascending rest)).
  apply insert_time_sorted, IH.
Qed.

Lemma sorted_last_greatest (a : Z) (l : list Z) :
  StronglySorted Z.le (a :: l) ->
  In (last (a :: l) a) (a :: l)
  /\ forall x, In x (a :: l) -> (a <= x <= last (a :: l) a)%Z.
Proof.
  revert a. induction l as [|b rest IH]; intros a Hs.
  - cbn. split; [left; reflexivity|]. intros x [->|[]]. lia.
  - inversion Hs as [|? ? Hs' Ha]; subst.
    destruct (IH b Hs') as [Hin Hb].
    change (last (a :: b :: rest) a) with (last (b :: rest) a).
    rewrite (last_default rest b a b). split; [right; exact Hin|].
    intros x [->|Hx].
    + inversion Ha as [|? ? Hab _]; subst.
      specialize (Hb b (or_introl eq_refl)). lia.
    + specialize (Hb x Hx). inversion Ha as [|? ? Hab _]; subst. lia.
Qed.

Ltac split_leb :=
  repeat match goal with
         | |- context [(?a <=? ?b)%Z] => destruct (Z.leb_spec a b)
         end.

Lemma insert_time_comm (x y : Z) (l : list Z) :
  insert_time x (insert_time y l) = insert_time y (insert_time x l).
Proof.
  induction l as [|u rest IH].
  - cbn. split_leb; try reflexivity; try lia.
    replace x with y by lia. reflexivity.
  - cbn [insert_time].
    destruct (Z.leb_spec y u); destruct (Z.leb_spec x u);
      cbn [insert_time]; split_leb; try reflexivity; try lia.
    + replace x with y by lia. reflexivity.
    + rewrite IH. reflexivity.
Qed.

Lemma sort_ascending_perm (l l' : list Z) :
  Permutation l l' -> sort_ascending l = sort_ascending l'.
Proof.
  induction 1 as [|a l l' _ IH|a b l|l l' l'' _ IH1 _ IH2].
  - reflexivity.
  - change (insert_time a (sort_ascending l)
            = insert_time a (sort_ascending l')).
    rewrite IH. reflexivity.
  - change (insert_time b (insert_time a (sort_ascending l))
            = insert_time a (insert_time b (sort_ascending l))).
    apply insert_time_comm.
  - congruence.
Qed.

Lemma filter_perm {A : Type} (f : A -> bool) (l l' : list A) :
  Permutation l l' -> Permutation (filter f l) (filter f l').
Proof.
  induction 1 as [|a l l' _ IH|a b l|l l' l'' _ IH1 _ IH2].
  - constructor.
  - cbn. destruct (f a); [constructor|]; exact IH.
  - cbn. destruct (f a), (f b); try apply Permutation_refl.
    constructor.
  - eapply Permutation_trans; eassumption.
Qed.

Lemma validTimes_perm (arr arr' : list DrillDoc) :
  Permutation arr arr' -> Permutation (validTimes arr) (validTimes arr').
Proof.
  intro H. unfold validTimes, defined.
  apply Permutation_flat_map, filter_perm, Permutation_map, H.
Qed.

Lemma validTimes_in (arr : list DrillDoc) (t : Z) :
  In t (validTimes arr)
  <-> t <> 0%Z /\ exists r, In r arr /\ createdAt r = Some t.
Proof.
  unfold validTimes, defined. rewrite in_flat_map. split.
  - intros (o & Ho & Ht). apply filter_In in Ho. destruct Ho as [Ho Hb].
    apply in_map_iff in Ho. destruct Ho as (r & Hr & Hin).
    destruct o as [z|]; [|contradiction].
    destruct Ht as [->|[]]. cbn in Hb.
    split; [intro E; subst; discriminate|].
    exists r. split; [exact Hin | exact Hr].
  - intros (Hnz & r & Hin & Hr). exists (Some t). split; [|left; reflexivity].
    apply filter_In. split.
    + apply in_map_iff. exists r. split; [exact Hr | exact Hin].
    + cbn. destruct (Z.eqb_spec t 0); [contradiction | reflexivity].
Qed.

Lemma validTimes_length (arr : list DrillDoc) :
  (List.length (validTimes arr) <= List.length arr)%nat.
Proof.
  unfold validTimes. induction arr as [|r rest IH]; [cbn; lia|].
  cbn [map filter]. destruct (Boolean (getTime r)) eqn:E.
  - destruct (getTime r) as [z|]; [|discriminate].
    change (defined (Some z :: filter Boolean (map getTime rest)))
      with (z :: defined (filter Boolean (map getTime rest))).
    cbn [List.length]. lia.
  - cbn [List.length]. lia.
Qed.

Lemma div_nonneg (a b : Qc) : 0 <= a -> 0 < b -> 0 <= a / b.
Proof.
  intros Ha Hb. apply (Qcmult_lt_0_le_reg_r _ _ b Hb).
  assert (Hne : b <> 0).
  { intro E. rewrite E in Hb. exact (Qclt_not_eq _ _ Hb eq_refl). }
  replace (0 * b) with 0 by ring.
  replace (a / b * b) with a by (field; exact Hne). exact Ha.
Qed.

Lemma toFixed_nonneg (x : Qc) (f : nat) : 0 <= x -> 0 <= toFixed x f.
Proof.
  intro Hx.
  assert (E : int 0 / pow10 f = 0)
    by (rewrite int_0; field; apply pow10_neq0).
  rewrite <- E. apply toFixed_lower; [lia|]. rewrite E. exact Hx.
Qed.

Lemma Qclt_sub_r (a b c : Qc) : a < b + c -> a - c < b.
Proof.
  unfold Qclt, Qcminus. rewrite !this_plus.
  unfold Qcopp, Q2Qc. cbn [this]. rewrite Qred_correct.
  intro H. lra.
Qed.

(** Rounding a non-negative number to [f] decimals moves it by at most
    half a unit of the last decimal. *)
Lemma toFixed_near (x : Qc) (f : nat) :
  0 <= x ->
  x - dec 1 2 / pow10 f <= toFixed x f
  /\ toFixed x f <= x + dec 1 2 / pow10 f.
Proof.
  intro Hx. rewrite (toFixed_nonneg_arg x f Hx). unfold toFixed_magnitude.
  assert (Hu : 0 <= dec 1 2 / pow10 f).
  { apply div_nonneg; [|apply pow10_pos]. unfold Qcle. vm_compute.
    discriminate. }
  destruct (x ?= int (10 ^ 21)).
  - split.
    + unfold Qcle, Qcminus in *. rewrite this_plus.
      rewrite <- (Qplus_0_r (this x)) at 2. apply Qplus_le_r.
      unfold Qcopp, Q2Qc; cbn [this]. rewrite Qred_correct.
      apply Qopp_le_compat in Hu. exact Hu.
    + unfold Qcle in *. rewrite this_plus.
      rewrite <- (Qplus_0_r (this x)) at 1. apply Qplus_le_r. exact Hu.
  - rewrite floor_scaled.
    pose proof (floor_le (x * pow10 f + dec 1 2)) as Hle.
    pose proof (floor_lt (x * pow10 f + dec 1 2)) as Hlt.
    set (m := Qfloor (this (x * pow10 f + dec 1 2))) in *.
    rewrite int_plus in Hlt.
    split.
    + replace (x - dec 1 2 / pow10 f)
        with ((x * pow10 f + dec 1 2 - int 1) / pow10 f).
      * apply div_pow10_le. apply Qclt_le_weak.
        apply Qclt_sub_r. exact Hlt.
      * replace (int 1) with (dec 1 2 + dec 1 2)
          by (apply Qc_is_canon; reflexivity).
        field. apply pow10_neq0.
    + replace (x + dec 1 2 / pow10 f)
        with ((x * pow10 f + dec 1 2) / pow10 f)
        by (field; apply pow10_neq0).
      apply div_pow10_le. exact Hle.
  - split.
    + unfold Qcle, Qcminus in *. rewrite this_plus.
      rewrite <- (Qplus_0_r (this x)) at 2. apply Qplus_le_r.
      unfold Qcopp, Q2Qc; cbn [this]. rewrite Qred_correct.
      apply Qopp_le_compat in Hu. exact Hu.
    + unfold Qcle in *. rewrite this_plus.
      rewrite <- (Qplus_0_r (this x)) at 1. apply Qplus_le_r. exact Hu.
Qed.

Lemma half_unit_2 : dec 1 2 / pow10 2 = dec 1 200.
Proof. apply Qc_is_canon. reflexivity. Qed.

(** X15.  When a snapshot carries at least two usable timestamps, the
    rate shown is the average gap, (latest - earliest) / (their number
    - 1) / 1000 seconds, printed with two decimals: it is not negative
    and differs from that average by at most 0.005.  The consecutive
    gaps of the sorted timestamps add up to the span. *)
Theorem sampling_rate_formula (arr : list DrillDoc) (old : Rate) :
  (2 <= List.length (validTimes arr))%nat ->
  exists lo hi shown,
    In lo (validTimes arr) /\ In hi (validTimes arr)
    /\ (forall t, In t (validTimes arr) -> (lo <= t <= hi)%Z)
    /\ samplingRateAfter arr old = RateSeconds shown
    /\ 0 <= shown
    /\ int (hi - lo) / int (Z.of_nat (List.length (validTimes arr)) - 1)
       / int 1000 - dec 1 200
       <= shown
    /\ shown
       <= int (hi - lo) / int (Z.of_nat (List.length (validTimes arr)) - 1)
          / int 1000 + dec 1 200.
Proof.
  intro Hn. pose proof (validTimes_length arr) as Hlen.
  unfold samplingRateAfter.
  destruct (Nat.ltb_spec 1 (List.length arr)) as [_|]; [|lia].
  pose proof (sort_ascending_length (validTimes arr)) as Hsl.
  pose proof (sort_ascending_sorted (validTimes arr)) as Hss.
  assert (Hin : forall x, In x (sort_ascending (validTimes arr))
                          <-> In x (validTimes arr))
    by (intro x; apply sort_ascending_in).
  destruct (sort_ascending (validTimes arr)) as [|a l]; [cbn in Hsl; lia|].
  cbn [List.length] in Hsl.
  destruct (Nat.ltb_spec 1 (List.length (a :: l))) as [_|H];
    [|cbn in H; lia].
  destruct (sorted_last_greatest a l Hss) as [Hlast Hall].
  rewrite diffsOf_cons, deltas_sum, deltas_length, <- Hsl.
  replace (Z.of_nat (S (List.length l)) - 1)%Z
    with (Z.of_nat (List.length l)) by lia.
  set (avg := int (last (a :: l) a - a) / int (Z.of_nat (List.length l))
              / int 1000).
  assert (Havg : 0 <= avg).
  { unfold avg. apply div_nonneg.
    - apply div_nonneg.
      + rewrite <- int_0. apply (proj1 (int_le _ _)).
        specialize (Hall _ Hlast). lia.
      + rewrite <- int_0. apply (proj1 (int_lt _ _)). lia.
    - rewrite <- int_0. apply (proj1 (int_lt _ _)). lia. }
  exists a, (last (a :: l) a), (toFixed avg 2).
  split; [apply Hin; left; reflexivity|].
  split; [apply Hin; exact Hlast|].
  split; [intros t Ht; apply Hall, Hin, Ht|].
  split; [reflexivity|].
  split; [apply toFixed_nonneg, Havg|].
  rewrite <- half_unit_2. apply toFixed_near, Havg.
Qed.

Lemma sampling_rate_formula_witness :
  exists lo hi shown,
    In lo (validTimes [mkDoc "a" None None None None None (Some 6005%Z);
                       mkDoc "b" None None None None None (Some 5000%Z)])
    /\ In hi (validTimes [mkDoc "a" None None None None None (Some 6005%Z);
                          mkDoc "b" None None None None None (Some 5000%Z)])
    /\ (forall t,
          In t (validTimes
                  [mkDoc "a" None None None None None (Some 6005%Z);
                   mkDoc "b" None None None None None (Some 5000%Z)]) ->
          (lo <= t <= hi)%Z)
    /\ samplingRateAfter
         [mkDoc "a" None None None None None (Some 6005%Z);
          mkDoc "b" None None None None None (Some 5000%Z)] RateNA
       = RateSeconds shown
    /\ 0 <= shown
    /\ int (hi - lo)
       / int (Z.of_nat
                (List.length
                   (validTimes
                      [mkDoc "a" None None None None None (Some 6005%Z);
                       mkDoc "b" None None None None None (Some 5000%Z)]))
              - 1)
       / int 1000 - dec 1 200
       <= shown
    /\ shown
       <= int (hi - lo)
          / int (Z.of_nat
                   (List.length
                      (validTimes
                         [mkDoc "a" None None None None None (Some 6005%Z);
                          mkDoc "b" None None None None None
                                (Some 5000%Z)]))
                 - 1)
          / int 1000 + dec 1 200.
Proof.
  apply (sampling_rate_formula
           [mkDoc "a" None None None None None (Some 6005%Z);
            mkDoc "b" None None None None None (Some 5000%Z)] RateNA).
  cbn. lia.
Defined.

(** X16.  The rate shown does not depend on the order in which the
    snapshot lists the records. *)
Theorem sampling_rate_any_order (arr arr' : list DrillDoc) (old : Rate) :
  Permutation arr arr' ->
  samplingRateAfter arr old = samplingRateAfter arr' old.
Proof.
  intro H. unfold samplingRateAfter.
  rewrite (Permutation_length H).
  rewrite (sort_ascending_perm _ _ (validTimes_perm _ _ H)).
  reflexivity.
Qed.

Lemma sampling_rate_any_order_witness :
  samplingRateAfter
    [mkDoc "a" None None None None None (Some 6000%Z);
     mkDoc "b" None None None None None (Some 1000%Z)] RateNA
  = samplingRateAfter
      [mkDoc "b" None None None None None (Some 1000%Z);
       mkDoc "a" None None None None None (Some 6000%Z)] RateNA.
Proof.
  apply (sampling_rate_any_order
           [mkDoc "a" None None None None None (Some 6000%Z);
            mkDoc "b" None None None None None (Some 1000%Z)]
           [mkDoc "b" None None None None None (Some 1000%Z);
            mkDoc "a" None None None None None (Some 6000%Z)] RateNA).
  apply perm_swap.
Defined.

(** X17.  A snapshot of at most one record shows 'N/A'.  A snapshot of
    two or more records with fewer than two usable timestamps leaves
    the rate that was shown before.  A timestamp is usable exactly when
    some record carries it and it is not 0: a missing [createdAt] and
    the epoch itself are dropped by [filter(Boolean)]. *)
Theorem sampling_rate_edges (arr : list DrillDoc) (old : Rate) :
  ((List.length arr <= 1)%nat -> samplingRateAfter arr old = RateNA)
  /\ ((2 <= List.length arr)%nat ->
      (List.length (validTimes arr) <= 1)%nat ->
      samplingRateAfter arr old = old)
  /\ (forall t, In t (validTimes arr)
                <-> t <> 0%Z /\ exists r, In r arr /\ createdAt r = Some t).
Proof.
  split; [|split].
  - intro H. unfold samplingRateAfter.
    destruct (Nat.ltb_spec 1 (List.length arr)); [lia | reflexivity].
  - intros H Hv. unfold samplingRateAfter.
    destruct (Nat.ltb_spec 1 (List.length arr)); [|lia].
    rewrite sort_ascending_length.
    destruct (Nat.ltb_spec 1 (List.length (validTimes arr)));
      [lia | reflexivity].
  - apply validTimes_in.
Qed.

(** X18.  The chart always gets as many labels as data points, and
    never none: both lists have one entry per record, or a single
    placeholder entry when there are no records. *)
Theorem chart_lengths (f : Z -> string) (records : list DrillDoc)
      (m : Metric) (rul est : option number) :
  List.length (labels (chartData f records m rul est))
  = Nat.max 1 (List.length records)
  /\ List.length (data (chartData f records m rul est))
     = Nat.max 1 (List.length records).
Proof.
  unfold chartData. cbn [labels data].
  rewrite <- (length_rev records).
  destruct (rev records) as [|p ps]; [destruct m; split; reflexivity|].
  split; [cbn; rewrite length_map; reflexivity|].
  destruct m; cbn; rewrite ?length_map, ?repeat_length; reflexivity.
Qed.

Lemma greater_true (x limit : number) :
  greater (Some x) limit = true <-> limit < x.
Proof.
  unfold greater. destruct (x ?= limit) eqn:E; split; intro H;
    try discriminate; try reflexivity.
  - apply Qceq_alt in E. subst. exfalso. exact (Qclt_not_eq _ _ H eq_refl).
  - apply Qclt_alt in E. exfalso.
    exact (Qclt_not_le _ _ E (Qclt_le_weak _ _ H)).
  - apply Qcgt_alt in E. exact E.
Qed.

Lemma half_grid_gt (limit k : Z) (f : nat) (x : number) :
  (2 * limit * 10 ^ Z.of_nat f < k)%Z ->
  int k / int 2 / pow10 f <= x -> int limit < x.
Proof.
  intros Hk Hx. eapply Qclt_le_trans; [|exact Hx].
  apply Qcnot_le_lt. intro Hle.
  assert (H2 : int k <= int (2 * limit * 10 ^ Z.of_nat f)).
  { replace (int k) with (int k / int 2 / pow10 f * (pow10 f * int 2))
      by (field; split; first [apply pow10_neq0 | apply int_2_neq0]).
    replace (int (2 * limit * 10 ^ Z.of_nat f))
      with (int limit * (pow10 f * int 2))
      by (rewrite !int_mult; fold (pow10 f); ring).
    apply Qcmult_le_compat_r; [exact Hle|].
    apply Qclt_le_weak. replace 0 with (0 * int 2) by ring.
    apply Qcmult_lt_compat_r; [apply int_2_pos | apply pow10_pos]. }
  apply int_le in H2. lia.
Qed.

(** X19.  When the newest record shown is the one stored from the call
    of rank [c] (draws in [0, 1)), the RPM card is in alert exactly for
    [c < 1000]; the temperature card is in alert for every [c > 5000],
    the load card for every [c > 4000] and the vibration card for every
    [c > 2500]. *)
Theorem alerts_follow_wear
        (src : nat -> number) (evs : list event) (c : nat)
        (key : string) (stamp : option Z) (older : list DrillDoc)
        (rul est : option number) :
  unit_range src ->
  call_number src evs = c ->
  let shown := storedDoc key (call_after src evs) stamp :: older in
  (isAlert Mrpm shown rul est = true <-> (c < 1000)%nat)
  /\ ((5000 < c)%nat -> isAlert Mtemp shown rul est = true)
  /\ ((4000 < c)%nat -> isAlert Mload shown rul est = true)
  /\ ((2500 < c)%nat -> isAlert Mvibration shown rul est = true).
Proof.
  intros Hsrc Hc shown. subst shown.
  cbn [isAlert latest storedDoc doc_temp doc_rpm doc_load doc_vibration
       thresholds temp rpm load vibration].
  assert (Hv : call_after src evs = sample_of_call src c).
  { rewrite call_after_closed_form, Hc. reflexivity. }
  destruct (sample_bounds src c Hsrc)
    as ((Ht & _) & (Hl & _) & (Hvib & _) & _).
  rewrite <- Hv in Ht, Hl, Hvib.
  split; [|split; [|split]].
  - rewrite greater_true, call_after_rpm, Hc, <- int_lt. lia.
  - intro Hbig. apply greater_true.
    apply (half_grid_gt 70 _ 2 _) in Ht; [exact Ht|].
    change (10 ^ Z.of_nat 2)%Z with 100%Z. lia.
  - intro Hbig. apply greater_true.
    apply (half_grid_gt 20 _ 2 _) in Hl; [exact Hl|].
    change (10 ^ Z.of_nat 2)%Z with 100%Z. lia.
  - intro Hbig. apply greater_true.
    apply (half_grid_gt 5 _ 3 _) in Hvib; [exact Hvib|].
    change (10 ^ Z.of_nat 3)%Z with 1000%Z. lia.
Qed.

Lemma alerts_follow_wear_witness :
  let shown := storedDoc "k" (call_after zero_source []) None :: [] in
  (isAlert Mrpm shown None None = true <-> (1 < 1000)%nat)
  /\ ((5000 < 1)%nat -> isAlert Mtemp shown None None = true)
  /\ ((4000 < 1)%nat -> isAlert Mload shown None None = true)
  /\ ((2500 < 1)%nat -> isAlert Mvibration shown None None = true).
Proof.
  apply (alerts_follow_wear zero_source [] 1 "k" None [] None None).
  - intro k. split; [apply Qcle_refl | reflexivity].
  - reflexivity.
Defined.

Lemma rev_index (A : Type) (l : list A) (i : nat) (x : A) :
  nth_error l i = Some x ->
  nth_error (rev l) (List.length l - 1 - i) = Some x.
Proof.
  intro H. assert (Hi : (i < List.length l)%nat).
  { apply nth_error_Some. congruence. }
  rewrite nth_error_rev.
  destruct (Nat.ltb_spec (List.length l - 1 - i) (List.length l)); [|lia].
  replace (List.length l - S (List.length l - 1 - i))%nat with i by lia.
  exact H.
Qed.

(** X20.  The chart runs oldest to newest: record [i] of the
    newest-first list supplies point [n - 1 - i].  For a sensor metric
    the point is the record's field, 0 when missing; for 'rul' and
    'estTemp' every point is the current prediction, 0 when there is
    none; the label is the record's time, empty without a
    timestamp. *)
Theorem chart_series (f : Z -> string) (records : list DrillDoc)
        (m : Metric) (rul est : option number) (i : nat) (r : DrillDoc) :
  nth_error records i = Some r ->
  nth_error (data (chartData f records m rul est))
            (List.length records - 1 - i)
  = Some (match m with
          | Mrul => or_else rul 0
          | MestTemp => est ?? 0
          | _ => property r m ?? 0
          end)
  /\ nth_error (labels (chartData f records m rul est))
               (List.length records - 1 - i)
     = Some (match createdAt r with
             | Some t => f t
             | None => EmptyString
             end).
Proof.
  intro Hr. pose proof (rev_index _ records i r Hr) as Hrev.
  assert (Hi : (i < List.length records)%nat).
  { apply nth_error_Some. congruence. }
  unfold chartData. cbn [labels data].
  set (points := rev records) in *.
  assert (Hp : List.length points = List.length records)
    by apply length_rev.
  split.
  - assert (Hvals :
      nth_error
        (match m with
         | Mrul => repeat (or_else rul 0) (List.length points)
         | MestTemp => repeat (est ?? 0) (List.length points)
         | _ => map (fun r0 => match property r0 m with
                               | Some v => v
                               | None => 0
                               end) points
         end) (List.length records - 1 - i)
      = Some (match m with
              | Mrul => or_else rul 0
              | MestTemp => est ?? 0
              | _ => property r m ?? 0
              end)).
    { destruct m;
        try (rewrite (map_nth_error _ _ _ Hrev); reflexivity);
        apply nth_error_repeat; lia. }
    destruct (match m with
              | Mrul => repeat (or_else rul 0) (List.length points)
              | MestTemp => repeat (est ?? 0) (List.length points)
              | _ => map _ points
              end) as [|v vs]; [|exact Hvals].
    destruct (List.length records - 1 - i)%nat; discriminate Hvals.
  - pose proof (map_nth_error
                  (fun r0 => match createdAt r0 with
                             | Some t => f t
                             | None => EmptyString
                             end) _ _ Hrev) as Hl.
    destruct (map _ points) as [|v vs]; [|exact Hl].
    destruct (List.length records - 1 - i)%nat; discriminate Hl.
Qed.

Lemma chart_series_witness :
  nth_error (data (chartData (fun _ => "t"%string)
                             (window_of_temps [30; 32]%Z) Mtemp None None))
            (List.length (window_of_temps [30; 32]%Z) - 1 - 0)
  = Some (property (mkDoc "" (Some (int 30)) None None None None None)
                   Mtemp ?? 0)
  /\ nth_error (labels (chartData (fun _ => "t"%string)
                                  (window_of_temps [30; 32]%Z)
                                  Mtemp None None))
               (List.length (window_of_temps [30; 32]%Z) - 1 - 0)
     = Some (match createdAt
                     (mkDoc "" (Some (int 30)) None None None None None)
             with
             | Some t => "t"%string
             | None => EmptyString
             end).
Proof.
  apply (chart_series (fun _ => "t"%string) (window_of_temps [30; 32]%Z)
                      Mtemp None None 0
                      (mkDoc "" (Some (int 30)) None None None None None)).
  reflexivity.
Defined.
